(** * aelus-aether-mcp: HTTP facade, provider clients and project store

    A shallow embedding of the TypeScript sources of the repository and
    the properties its specification states about them.

    - [Js]: the JavaScript values, truthiness and exceptions the code relies on.
    - [ErrorMiddleware]: [src/http/middleware/error.ts].
    - [Validation]: [src/http/middleware/validation.ts].
    - [ToolResult]: [parseToolResult] of [src/http/utils/tool-executor.ts].
    - [Reranker]: [src/semantic/voyage-reranker.ts].
    - [Voyage]: [src/semantic/providers/voyage-provider.ts].
    - [ProjectManager]: [src/core/project-manager.ts].
    - [Conductor], [Fusion]: the admission control and rank fusion of the
      orchestration core.
    - [Text], [ProjectStore], [ErrorResponses], [Validators], [Cors],
      [VoyageBatches], [Rerank], [ToolExecution], [SseSessions]: further
      functions of the same files, and their callers. *)

From Stdlib Require Import ZArith QArith Lia Lqa List Bool Ascii String.
From Stdlib Require Import Sorting.Sorted Sorting.Permutation.
From stdpp Require Import base option list gmap strings.

Local Set Warnings "-register-all".
Local Open Scope string_scope.
Local Open Scope Z_scope.
Local Open Scope list_scope.

(* ===================================================================== *)
(** ** JavaScript values *)
(* ===================================================================== *)

Module Js.

(** A JSON value, as [res.json], [JSON.parse] and the Zod schemas see it.
    An [undefined] property is an absent key; [option json] is used where
    the code distinguishes [undefined] from a value. *)
Inductive json : Type :=
| JNull
| JBool (b : bool)
| JNum (n : Z)
| JStr (s : string)
| JArr (items : list json)
| JObj (fields : list (string * json)).

(** [o.key] on an object literal; the first binding wins. *)
Fixpoint assoc_get (key : string) (fields : list (string * json)) : option json :=
  match fields with
  | [] => None
  | (k, v) :: rest => if String.eqb k key then Some v else assoc_get key rest
  end.

Definition obj_get (key : string) (j : json) : option json :=
  match j with
  | JObj fields => assoc_get key fields
  | _ => None
  end.

(** [o.k1.k2...] *)
Fixpoint obj_path (keys : list string) (j : json) : option json :=
  match keys with
  | [] => Some j
  | k :: rest =>
      match obj_get k j with
      | Some v => obj_path rest v
      | None => None
      end
  end.

(** ToBoolean on JSON values: [null], [false], [0] and the empty string are
    falsy, every array and object is truthy. *)
Definition truthy (j : json) : bool :=
  match j with
  | JNull => false
  | JBool b => b
  | JNum n => negb (n =? 0)
  | JStr s => negb (String.eqb s "")
  | JArr _ => true
  | JObj _ => true
  end.

(** ToBoolean on a possibly-undefined string. *)
Definition truthy_str (s : option string) : bool :=
  match s with
  | Some s => negb (String.eqb s "")
  | None => false
  end.

(** [a || b] on possibly-undefined strings. *)
Definition or_str (a b : option string) : option string :=
  if truthy_str a then a else b.

(** [a || b] where [b] is a string. *)
Definition or_else_str (a : option string) (b : string) : string :=
  match a with
  | Some s => if String.eqb s "" then b else s
  | None => b
  end.

(** [a || b] where [a] is a possibly-undefined number and [b] a number. *)
Definition or_else_num (a : option Z) (b : Z) : Z :=
  match a with
  | Some n => if n =? 0 then b else n
  | None => b
  end.

(** An object literal some of whose properties may be [undefined]: these
    are dropped when the object is serialised. *)
Fixpoint obj_of (props : list (string * option json)) : list (string * json) :=
  match props with
  | [] => []
  | (k, Some v) :: rest => (k, v) :: obj_of rest
  | (_, None) :: rest => obj_of rest
  end.

Definition str_opt (s : option string) : option json :=
  match s with
  | Some s => Some (JStr s)
  | None => None
  end.

(** The result of running code that may throw. *)
Inductive outcome (E A : Type) : Type :=
| Returns (a : A)
| Throws (e : E).
Arguments Returns {E A} a.
Arguments Throws {E A} e.

Definition bind {E A B} (m : outcome E A) (f : A -> outcome E B) : outcome E B :=
  match m with
  | Returns a => f a
  | Throws e => Throws e
  end.

(** [try { body } catch (e) { handler(e) }] *)
Definition try_catch {E A} (body : outcome E A) (handler : E -> outcome E A) : outcome E A :=
  match body with
  | Returns a => Returns a
  | Throws e => handler e
  end.

(** Run the calls of a list one after the other and collect the results,
    as [array.map] with a callback that may throw does; the first failure
    is the failure of the whole. *)
Fixpoint sequence {E A} (calls : list (outcome E A)) : outcome E (list A) :=
  match calls with
  | [] => Returns []
  | c :: rest =>
      match c with
      | Throws e => Throws e
      | Returns a =>
          match sequence rest with
          | Throws e => Throws e
          | Returns l => Returns (a :: l)
          end
      end
  end.

(** The failure of the first call to fail in time. [settled] lists the
    positions of the calls in the order in which they settle; a call it
    leaves out settles after those it names, in list order. *)
Fixpoint first_failure {E A} (settled : list nat) (calls : list (outcome E A))
    : option E :=
  match settled with
  | [] => None
  | i :: rest =>
      match nth_error calls i with
      | Some (Throws e) => Some e
      | _ => first_failure rest calls
      end
  end.

(** [Promise.all(calls)]: the results in list order when every call
    returns, otherwise the failure of the call that fails first. *)
Definition promise_all {E A} (settled : list nat) (calls : list (outcome E A))
    : outcome E (list A) :=
  match first_failure settled calls with
  | Some e => Throws e
  | None => sequence calls
  end.

End Js.

(* ===================================================================== *)
(** ** Error handling middleware *)
(* ===================================================================== *)

Module ErrorMiddleware.
Import Js.

(** The fields of an [ApiError]; [errors] is the extra property a
    [ZodError] carries. *)
Record ApiError : Type := mkApiError {
  name : string;
  message : string;
  stack : option string;
  statusCode : option Z;
  code : option string;
  details : option json;
  errors : option json
}.

(** What [errorHandler] can be handed, by class. [HttpError] is built by its
    constructor only, which fixes [name] to ["HttpError"] and requires a
    status code. *)
Inductive Thrown : Type :=
| AgentBusyError (e : ApiError)
| HttpError (status : Z) (msg : string) (code : option string) (details : option json)
| OtherError (e : ApiError).

(** [Object.assign(new Error(msg), { statusCode, code, details })] *)
Definition assign_error (msg : string) (status : Z) (c : option string)
    (d : option json) : ApiError :=
  {| name := "Error"; message := msg; stack := None; statusCode := Some status;
     code := c; details := d; errors := None |}.

(** An [HttpError] seen through the [ApiError] interface. *)
Definition http_as_api (status : Z) (msg : string) (c : option string)
    (d : option json) : ApiError :=
  {| name := "HttpError"; message := msg; stack := None; statusCode := Some status;
     code := c; details := d; errors := None |}.

Record Request : Type := mkRequest {
  method : string;
  path : string;
  x_request_id : option string;
  body : json
}.

(** The part of the Express response object the middleware reads. *)
Record Res : Type := mkRes {
  headersSent : bool;
  locals_requestId : option string
}.

(** The status and the JSON body of a [res.status(s).json(b)] that went
    through. *)
Record Response : Type := mkResponse {
  status : Z;
  payload : json
}.

(** What a call of a handler leaves behind: the response it wrote; nothing,
    because the headers were sent before; or the exception of
    [res.status(s).json(...)] for a status that is refused, which leaves
    the handler without an answer written and goes to the error handling
    built into Express. *)
Inductive Handled : Type :=
| Written (r : Response)
| Untouched
| Refused (s : Z).

(** [res.status(s).json(b)]. A status outside 100..999 is refused with a
    [RangeError], by [res.status] itself from Express 5 on and by
    [writeHead] of Node before. *)
Definition status_json (s : Z) (b : json) : Handled :=
  if (100 <=? s) && (s <=? 999) then Written (mkResponse s b) else Refused s.

(** [process.env.NODE_ENV] *)
Definition Env : Type := option string.

Definition isDev (env : Env) : bool :=
  match env with
  | Some v => negb (String.eqb v "production")
  | None => true
  end.

Definition formatErrorResponse (error : ApiError) (requestId : option string) : json :=
  JObj [ ("success", JBool false);
         ("error",
           JObj ([ ("message", JStr (message error));
                   ("code", JStr (or_else_str (code error) (name error))) ]
                 ++ match details error with
                    | Some d => [("details", d)]
                    | None => []
                    end
                 ++ (if truthy_str requestId
                     then obj_of [("requestId", str_opt requestId)]
                     else [])) ) ].

(** [res.locals.requestId || req.headers["x-request-id"]] *)
Definition requestId_of (req : Request) (res : Res) : option string :=
  or_str (locals_requestId res) (x_request_id req).

(** [errorHandler]. Nothing is written once the headers are sent; the
    status of an [HttpError] and of an unclassified error is the error's
    own and is handed to [res.status] unchecked. Logging is omitted, it
    does not reach the response. *)
Definition errorHandler (env : Env) (err : Thrown) (req : Request) (res : Res)
    : Handled :=
  if headersSent res then Untouched
  else
    let requestId := requestId_of req res in
    match err with
    | AgentBusyError e =>
        let agentError := assign_error (message e) 503 (Some "AGENT_BUSY") (details e) in
        status_json 503 (formatErrorResponse agentError requestId)
    | HttpError st msg c d =>
        status_json st (formatErrorResponse (http_as_api st msg c d) requestId)
    | OtherError e =>
        if String.eqb (name e) "ValidationError" then
          let validationError :=
            assign_error (message e) 400 (Some "VALIDATION_ERROR") (details e) in
          status_json 400 (formatErrorResponse validationError requestId)
        else if String.eqb (name e) "ZodError" then
          status_json 400
            (JObj [ ("success", JBool false);
                    ("error",
                      JObj (obj_of
                        [ ("message", Some (JStr "Validation failed"));
                          ("code", Some (JStr "VALIDATION_ERROR"));
                          ("details", errors e);
                          ("requestId", str_opt requestId) ])) ])
        else
          let statusCode := or_else_num (statusCode e) 500 in
          let errorMessage :=
            if isDev env || negb (statusCode =? 500)
            then message e else "Internal server error" in
          let defaultError :=
            assign_error errorMessage statusCode
              (Some (or_else_str (code e) (name e)))
              (if isDev env
               then Some (JObj (obj_of [ ("stack", str_opt (stack e));
                                         ("originalMessage", Some (JStr (message e))) ]))
               else details e) in
          status_json statusCode (formatErrorResponse defaultError requestId)
    end.


(** The [error] object of a response body and its fields. *)
Definition error_field (key : string) (r : Response) : option json :=
  obj_path ["error"; key] (payload r).







(** *** Facts about the response format *)


Lemma truthy_str_Some (s : string) : s <> "" -> truthy_str (Some s) = true.
Proof.
  intros Hs. unfold truthy_str. now destruct (String.eqb_spec s "").
Qed.



Lemma format_details (e : ApiError) (rid : option string) (st : Z) :
  error_field "details" (mkResponse st (formatErrorResponse e rid)) = details e.
Proof.
  unfold error_field, formatErrorResponse. cbn.
  destruct (details e) as [d|]; cbn; [reflexivity|].
  destruct (truthy_str rid); [|reflexivity].
  destruct rid; reflexivity.
Qed.


Lemma requestId_of_truthy (req : Request) (res : Res) (rid : string) :
  requestId_of req res = Some rid -> rid <> "" ->
  truthy_str (requestId_of req res) = true.
Proof. intros -> Hrid. now apply truthy_str_Some. Qed.

(** *** The answer of the handler *)







(** The response to an [AgentBusyError]. *)
Lemma errorHandler_agent_busy (env : Env) (e : ApiError) (req : Request) (res : Res) :
  headersSent res = false ->
  errorHandler env (AgentBusyError e) req res
  = Written (mkResponse 503
               (formatErrorResponse
                  (assign_error (message e) 503 (Some "AGENT_BUSY") (details e))
                  (requestId_of req res))).
Proof. intros Hs. unfold errorHandler. now rewrite Hs. Qed.

(** The response to an [HttpError]. *)
Lemma errorHandler_http (env : Env) (st : Z) (msg : string) (c : option string)
    (d : option json) (req : Request) (res : Res) :
  headersSent res = false ->
  errorHandler env (HttpError st msg c d) req res
  = status_json st
      (formatErrorResponse (http_as_api st msg c d) (requestId_of req res)).
Proof. intros Hs. unfold errorHandler. now rewrite Hs. Qed.

(** Once the headers are sent the handler writes nothing. *)
Lemma errorHandler_headers_sent (env : Env) (err : Thrown) (req : Request) (res : Res) :
  headersSent res = true -> errorHandler env err req res = Untouched.
Proof. intros Hs. unfold errorHandler. now rewrite Hs. Qed.









(** *** The operation boundary *)




End ErrorMiddleware.

(* ===================================================================== *)
(** ** Request validation middleware *)
(* ===================================================================== *)

Module Validation.
Import Js ErrorMiddleware.

(** What [schema.parse] does with a value: it returns the parsed value,
    throws a [ZodError] listing the issues, or throws something else (a
    refinement or transform of the schema that raises). *)
Inductive ParseResult : Type :=
| Parsed (value : json)
| ZodFailure (issues : list json)
| OtherFailure (e : Thrown).

Definition ZodSchema : Type := json -> ParseResult.

(** The call a middleware makes to [next]. *)
Inductive NextCall : Type :=
| NextOk (req : Request)
| NextError (err : Thrown).

Definition with_body (b : json) (req : Request) : Request :=
  mkRequest (method req) (path req) (x_request_id req) b.

Definition validateBody (schema : ZodSchema) (req : Request) : NextCall :=
  match schema (body req) with
  | Parsed v => NextOk (with_body v req)
  | ZodFailure issues =>
      NextError (HttpError 400 "Validation failed" (Some "VALIDATION_ERROR")
                   (Some (JObj [("errors", JArr issues)])))
  | OtherFailure e => NextError e
  end.

(** The route handler, wrapped by [asyncHandler]: it answers or fails. *)
Definition Handler : Type := Request -> outcome Thrown Response.

(** One run of [router.post(path, validateBody(schema), asyncHandler(h))]
    followed by the application's [errorHandler]: the request the handler
    was invoked with, if it was, and what the run leaves behind. Express
    skips the remaining handlers of the route when [next] is given an
    error and goes to the error-handling middleware. *)
Record RouteRun : Type := mkRun {
  handler_input : option Request;
  response : Handled
}.

Definition run_route (env : Env) (schema : ZodSchema) (handler : Handler)
    (req : Request) (res : Res) : RouteRun :=
  match validateBody schema req with
  | NextOk req' =>
      match handler req' with
      | Returns r => mkRun (Some req') (Written r)
      | Throws e => mkRun (Some req') (errorHandler env e req' res)
      end
  | NextError err => mkRun None (errorHandler env err req res)
  end.

(** C7: a body the schema rejects makes [validateBody] pass to [next] an
    [HttpError] with status 400, code [VALIDATION_ERROR] and the schema's
    issues as details; the route handler is not invoked and the response,
    written while the headers are unsent, is a 400 carrying that code and
    those issues. A body the schema accepts replaces [req.body] by the
    parsed value, and the handler is invoked with it. *)
Theorem validateBody_contract (env : Env) (schema : ZodSchema) (handler : Handler)
    (req : Request) (res : Res) :
  (forall issues, schema (body req) = ZodFailure issues ->
     validateBody schema req
     = NextError (HttpError 400 "Validation failed" (Some "VALIDATION_ERROR")
                    (Some (JObj [("errors", JArr issues)]))) /\
     handler_input (run_route env schema handler req res) = None /\
     (headersSent res = false ->
        exists r, response (run_route env schema handler req res) = Written r /\
          status r = 400 /\
          error_field "code" r = Some (JStr "VALIDATION_ERROR") /\
          obj_path ["error"; "details"; "errors"] (payload r) = Some (JArr issues)))
  /\
  (forall v, schema (body req) = Parsed v ->
     validateBody schema req = NextOk (with_body v req) /\
     body (with_body v req) = v /\
     handler_input (run_route env schema handler req res) = Some (with_body v req)).
Proof.
  split.
  - intros issues Hz. unfold run_route, validateBody. rewrite Hz. cbn.
    repeat split. intros Hs.
    rewrite errorHandler_http by exact Hs. eexists. split; [reflexivity|].
    split; [reflexivity|]. split; reflexivity.
  - intros v Hv. unfold run_route, validateBody. rewrite Hv.
    repeat split. now destruct (handler (with_body v req)).
Qed.

(** A schema that wants an object and says so otherwise. *)
Definition object_schema : ZodSchema :=
  fun b =>
    match b with
    | JObj fields => Parsed (JObj fields)
    | _ => ZodFailure [JObj [("message", JStr "Expected object")]]
    end.

Lemma validateBody_contract_witness :
  handler_input
    (run_route None object_schema
       (fun _ => Returns (mkResponse 200 (JObj [("success", JBool true)])))
       (mkRequest "POST" "/api/projects" None (JStr "oops")) (mkRes false None))
  = None /\
  handler_input
    (run_route None object_schema
       (fun _ => Returns (mkResponse 200 (JObj [("success", JBool true)])))
       (mkRequest "POST" "/api/projects" None (JObj [])) (mkRes false None))
  = Some (mkRequest "POST" "/api/projects" None (JObj [])).
Proof.
  split.
  - apply (proj1 (validateBody_contract None object_schema
                    (fun _ => Returns (mkResponse 200 (JObj [("success", JBool true)])))
                    (mkRequest "POST" "/api/projects" None (JStr "oops"))
                    (mkRes false None))
             [JObj [("message", JStr "Expected object")]] eq_refl).
  - apply (proj2 (validateBody_contract None object_schema
                    (fun _ => Returns (mkResponse 200 (JObj [("success", JBool true)])))
                    (mkRequest "POST" "/api/projects" None (JObj []))
                    (mkRes false None))
             (JObj []) eq_refl).
Defined.

End Validation.

(* ===================================================================== *)
(** ** Tool results *)
(* ===================================================================== *)

Module ToolResult.
Import Js.

(** An element of [ToolExecutionResult.content]; [text] may be missing. *)
Record ContentItem : Type := mkItem {
  type_ : string;
  text : option string
}.

Record ToolExecutionResult : Type := mkResult {
  content : list ContentItem
}.

Definition failure (msg : string) : json :=
  JObj [("success", JBool false); ("error", JStr msg)].

Section Parse.

(** The errors of the runtime and [JSON.parse], which returns the value a
    text denotes or throws a [SyntaxError]. The empty text is not JSON. *)
Variable E : Type.
Variable JSON_parse : string -> outcome E json.
Hypothesis JSON_parse_empty : forall j, JSON_parse "" <> Returns j.

(** [result.content[0]?.text] *)
Definition first_text (result : ToolExecutionResult) : option string :=
  match content result with
  | [] => None
  | item :: _ => text item
  end.

Definition parseToolResult (result : ToolExecutionResult) : outcome E json :=
  try_catch
    (let textContent := first_text result in
     if negb (truthy_str textContent) then
       Returns (failure "Empty response from tool")
     else
       match textContent with
       | Some t => JSON_parse t
       | None => Returns (failure "Empty response from tool")
       end)
    (fun _ => Returns (failure "Failed to parse tool response")).


End Parse.




End ToolResult.

(* ===================================================================== *)
(** ** Re-ranker model limits *)
(* ===================================================================== *)

Module Reranker.

Record ModelLimits : Type := mkLimits {
  maxQueryTokens : Z;
  maxDocuments : Z;
  maxTotalTokens : Z
}.

(** [VoyageReranker.getModelLimits]; the [switch] compares with [===]. *)
Definition getModelLimits (model : string) : ModelLimits :=
  if String.eqb model "rerank-2" then mkLimits 2000 1000 300000
  else if String.eqb model "rerank-2-lite" then mkLimits 2000 1000 300000
  else if String.eqb model "rerank-1" then mkLimits 2000 1000 100000
  else if String.eqb model "rerank-lite-1" then mkLimits 1000 1000 300000
  else mkLimits 1000 1000 100000.

(** C6: [getModelLimits] answers for every model name: the four known
    models get their documented limits and any other name the conservative
    defaults (1000, 1000, 100000). *)
Theorem getModelLimits_table :
  getModelLimits "rerank-2" = mkLimits 2000 1000 300000 /\
  getModelLimits "rerank-2-lite" = mkLimits 2000 1000 300000 /\
  getModelLimits "rerank-1" = mkLimits 2000 1000 100000 /\
  getModelLimits "rerank-lite-1" = mkLimits 1000 1000 300000 /\
  (forall model : string,
      model <> "rerank-2" -> model <> "rerank-2-lite" ->
      model <> "rerank-1" -> model <> "rerank-lite-1" ->
      getModelLimits model = mkLimits 1000 1000 100000).
Proof.
  repeat split; try reflexivity.
  intros model H2 H2l H1 Hl1. unfold getModelLimits.
  apply String.eqb_neq in H2, H2l, H1, Hl1.
  now rewrite H2, H2l, H1, Hl1.
Qed.

Lemma getModelLimits_table_witness :
  getModelLimits "rerank-3" = mkLimits 1000 1000 100000.
Proof.
  apply getModelLimits_table; intros H; discriminate H.
Defined.

End Reranker.

(* ===================================================================== *)
(** ** Voyage embedding provider *)
(* ===================================================================== *)

Module Voyage.
Import Js.
Local Open Scope list_scope.

(** The [input] of a request body: one text or a list of texts. *)
Inductive EmbedInput : Type :=
| Single (text : string)
| Batch (texts : list string).

(** The position [Array.prototype.slice] makes of an index [k] of an array
    of length [len]: counted from the end when negative, and kept within
    the array. *)
Definition slice_index (len k : Z) : Z :=
  if k <? 0 then Z.max (len + k) 0 else Z.min k len.

(** [texts.slice(i, j)] *)
Definition slice {A} (i j : Z) (l : list A) : list A :=
  let len := Z.of_nat (length l) in
  let from := slice_index len i in
  let to := slice_index len j in
  firstn (Z.to_nat (to - from)) (skipn (Z.to_nat from) l).

(** The chunking loop of [embedBatch],
    [for (let i = 0; i < texts.length; i += size) chunks.push(texts.slice(i, i + size))],
    entered at index [i] with the chunks pushed so far; [None] when the
    fuel runs out before the loop ends. [size] is [info.maxBatchSize], a
    number the constructor takes as it is given; whole numbers are
    modelled, of either sign. *)
Fixpoint chunk_loop (fuel : nat) (size i : Z) (texts : list string)
    (chunks : list (list string)) : option (list (list string)) :=
  if i <? Z.of_nat (length texts) then
    match fuel with
    | O => None
    | S fuel' =>
        chunk_loop fuel' size (i + size) texts (chunks ++ [slice i (i + size) texts])
    end
  else Some chunks.

Section Provider.

(** What the provider class is built on: the errors thrown, a
    [Float32Array], its constructor applied to a possibly-undefined value,
    [new Error(msg)], the [TypeError] of reading a property of [null], and
    the provider behind [HttpEngine.callSingle]: the JSON answered to
    [POST /v1/embeddings] for an input, or the failure of the request. *)
Variable E : Type.
Variable Vec : Type.
Variable Float32Array_new : option json -> outcome E Vec.
Variable new_Error : string -> E.
Variable type_error : E.
Variable post_embeddings : EmbedInput -> outcome E json.

(** [d.embedding] *)
Definition embedding_of (d : json) : outcome E (option json) :=
  match d with
  | JNull => Throws type_error
  | _ => Returns (obj_get "embedding" d)
  end.

(** [parseSingle]. [info.dimension] is set by the constructor to a non-zero
    number, so neither parser changes it. *)
Definition parseSingle (j : json) : outcome E Vec :=
  match obj_get "data" j with
  | Some (JArr (d :: _)) =>
      match obj_get "embedding" d with
      | Some (JArr xs) => Float32Array_new (Some (JArr xs))
      | _ => Throws (new_Error "Voyage AI invalid embedding response")
      end
  | _ => Throws (new_Error "Voyage AI invalid embedding response")
  end.

Definition parseBatch (j : json) : outcome E (list Vec) :=
  match obj_get "data" j with
  | Some (JArr data) =>
      sequence (map (fun d => bind (embedding_of d) Float32Array_new) data)
  | _ => Throws (new_Error "Voyage AI invalid batch response")
  end.

(** Modelled from the spec: [HttpEngine.callSingle], whose file
    [http-engine.ts] is not among the sources: one request to the endpoint
    with the input, its JSON answer given to the parser. *)
Definition callSingle {R} (input : EmbedInput) (parse : json -> outcome E R)
    : outcome E R :=
  bind (post_embeddings input) parse.

(** Modelled from the spec: [HttpEngine.callBatch], whose file
    [http-engine.ts] is not among the sources. The specification calls the
    fallback element-wise calls: one [callSingle] per text, results in
    input order; the engine runs them with a concurrency of its own, so a
    failure is that of the request that fails first. *)
Definition callBatch {R} (settled : list nat) (texts : list string)
    (parse : json -> outcome E R) : outcome E (list R) :=
  promise_all settled (map (fun t => callSingle (Single t) parse) texts).

(** [embedBatch], with the order in which its requests settle and
    [info.maxBatchSize] as arguments. *)
Definition embedBatch (fuel : nat) (settled : list nat) (maxBatchSize : option Z)
    (texts : list string) : option (outcome E (list Vec)) :=
  let size :=
    match maxBatchSize with
    | Some n => n
    | None => Z.of_nat (length texts)
    end in
  if size <? Z.of_nat (length texts) then
    match chunk_loop fuel size 0 texts [] with
    | None => None
    | Some chunks =>
        Some (bind (promise_all settled
                      (map (fun c => callSingle (Batch c) parseBatch) chunks))
                (fun parts => Returns (concat parts)))
    end
  else
    Some (try_catch (callSingle (Batch texts) parseBatch)
            (fun _ => callBatch settled texts parseSingle)).

(** *** The chunking loop *)

(** From a position within the array on, [slice] takes the next [size]
    elements, or what is left of the array. *)
Lemma slice_forward {A} (i size : Z) (l : list A) :
  0 <= i -> 0 <= size ->
  slice i (i + size) l = firstn (Z.to_nat size) (skipn (Z.to_nat i) l).
Proof.
  intros Hi Hsize. unfold slice, slice_index. cbv zeta.
  destruct (Z.ltb_spec i 0); [lia|]. destruct (Z.ltb_spec (i + size) 0); [lia|].
  destruct (Z_le_gt_dec i (Z.of_nat (length l))) as [Hin|Hout].
  - rewrite (Z.min_l i) by lia.
    destruct (Z_le_gt_dec (i + size) (Z.of_nat (length l))) as [Hfit|Hcut].
    + rewrite Z.min_l by lia. now replace (i + size - i) with size by lia.
    + rewrite Z.min_r by lia.
      rewrite !firstn_all2; [reflexivity | |]; rewrite length_skipn; lia.
  - rewrite !Z.min_r by lia.
    rewrite !skipn_all2 by lia. now rewrite !firstn_nil.
Qed.

Lemma slice_length (i size : Z) (texts : list string) :
  0 <= i -> 0 <= size ->
  length (slice i (i + size) texts)
  = Nat.min (Z.to_nat size) (length texts - Z.to_nat i).
Proof.
  intros Hi Hsize. rewrite slice_forward by assumption.
  now rewrite length_firstn, length_skipn.
Qed.

Lemma slice_then_rest (i size : Z) (texts : list string) :
  0 <= i -> 0 <= size ->
  slice i (i + size) texts ++ skipn (Z.to_nat (i + size)) texts
  = skipn (Z.to_nat i) texts.
Proof.
  intros Hi Hsize. rewrite slice_forward by assumption.
  replace (Z.to_nat (i + size)) with (Z.to_nat size + Z.to_nat i)%nat by lia.
  rewrite <- skipn_skipn. apply firstn_skipn.
Qed.

(** With a positive size and fuel for the texts left, the loop ends; the
    chunks it adds are non-empty, at most [size] long, and make up the
    texts from [i] on. *)
Lemma chunk_loop_spec (size : Z) (texts : list string) :
  0 < size ->
  forall fuel i chunks,
    0 <= i -> Z.of_nat (length texts) - i <= Z.of_nat fuel ->
    exists cs,
      chunk_loop fuel size i texts chunks = Some (chunks ++ cs) /\
      concat cs = skipn (Z.to_nat i) texts /\
      Forall (fun c => 0 < Z.of_nat (length c) <= size) cs.
Proof.
  intros Hsize fuel. induction fuel as [|fuel IH]; intros i chunks Hi Hfuel.
  - exists []. cbn [chunk_loop].
    destruct (Z.ltb_spec i (Z.of_nat (length texts))); [lia|].
    rewrite app_nil_r. split; [reflexivity|]. split; [|constructor].
    rewrite skipn_all2 by lia. reflexivity.
  - cbn [chunk_loop].
    destruct (Z.ltb_spec i (Z.of_nat (length texts))) as [Hlt|Hge].
    + destruct (IH (i + size) (chunks ++ [slice i (i + size) texts]))
        as (cs & Hloop & Hcat & Hall); [lia | lia |].
      exists (slice i (i + size) texts :: cs).
      rewrite Hloop, <- app_assoc. split; [reflexivity|]. split.
      * cbn. rewrite Hcat. apply slice_then_rest; lia.
      * constructor; [|exact Hall]. rewrite slice_length by lia. lia.
    + exists []. rewrite app_nil_r. split; [reflexivity|]. split; [|constructor].
      rewrite skipn_all2 by lia. reflexivity.
Qed.

(** A batch size of zero or less never leaves the loop: the index does not
    advance past the first text. *)
Lemma chunk_loop_never_ends (fuel : nat) (size i : Z) (texts : list string)
    (chunks : list (list string)) :
  size <= 0 -> i <= 0 -> texts <> [] ->
  chunk_loop fuel size i texts chunks = None.
Proof.
  intros Hsize Hi Hne. revert i chunks Hi.
  induction fuel as [|fuel IH]; intros i chunks Hi; cbn [chunk_loop];
    (destruct (Z.ltb_spec i (Z.of_nat (length texts))) as [Hlt|Hge];
     [|destruct texts; [contradiction | cbn [length] in Hge; lia]]).
  - reflexivity.
  - apply IH. lia.
Qed.

(** For such a size and a list that is not empty, [embedBatch] never
    returns. *)
Lemma embedBatch_never_returns (fuel : nat) (settled : list nat) (size : Z)
    (texts : list string) :
  size <= 0 -> texts <> [] -> embedBatch fuel settled (Some size) texts = None.
Proof.
  intros Hsize Hne. unfold embedBatch. cbv zeta.
  destruct (Z.ltb_spec size (Z.of_nat (length texts))) as [_|Hge].
  - now rewrite chunk_loop_never_ends by (assumption || lia).
  - destruct texts; [contradiction | cbn [length] in Hge; lia].
Qed.

Lemma sequence_map_Returns {A B} (f : A -> outcome E B) (g : A -> B) (l : list A) :
  (forall a, In a l -> f a = Returns (g a)) ->
  sequence (map f l) = Returns (map g l).
Proof.
  induction l as [|a l IH]; intros Hf; [reflexivity|].
  cbn. rewrite (Hf a) by now left.
  rewrite IH; [reflexivity|]. intros b Hb. apply Hf. now right.
Qed.

(** A failure of [sequence] is the failure of one of the calls, and one
    failing call makes it fail. *)
Lemma sequence_Throws {A} (calls : list (outcome E A)) (e : E) :
  sequence calls = Throws e -> In (Throws e) calls.
Proof.
  induction calls as [|c calls IH]; [discriminate|]. cbn.
  destruct c as [a|e']; [|intros [= ->]; now left].
  destruct (sequence calls) as [l|e'']; [discriminate|].
  intros [= ->]. right. now apply IH.
Qed.

Lemma sequence_fails {A} (calls : list (outcome E A)) (e : E) :
  In (Throws e) calls -> exists e', sequence calls = Throws e'.
Proof.
  induction calls as [|c calls IH]; [intros []|]. intros [-> | Hin].
  - now exists e.
  - cbn. destruct c as [a|e']; [|now exists e'].
    destruct (IH Hin) as [e' ->]. now exists e'.
Qed.

Lemma first_failure_In {A} (settled : list nat) (calls : list (outcome E A)) (e : E) :
  first_failure settled calls = Some e -> In (Throws e) calls.
Proof.
  induction settled as [|i settled IH]; [discriminate|]. cbn.
  destruct (nth_error calls i) as [[a|e']|] eqn:Hnth; [exact IH | | exact IH].
  intros [= ->]. eapply nth_error_In. exact Hnth.
Qed.

Lemma first_failure_all_return {A} (settled : list nat) (calls : list (outcome E A))
    (l : list A) :
  sequence calls = Returns l -> first_failure settled calls = None.
Proof.
  intros Hall. destruct (first_failure settled calls) as [e|] eqn:Hfirst; [|reflexivity].
  apply first_failure_In in Hfirst.
  destruct (sequence_fails calls e Hfirst) as [e' He']. congruence.
Qed.

(** [Promise.all] returns exactly when every call returns, with the
    results in list order whatever the order of settling. *)
Lemma promise_all_Returns {A} (settled : list nat) (calls : list (outcome E A))
    (l : list A) :
  sequence calls = Returns l -> promise_all settled calls = Returns l.
Proof.
  intros Hall. unfold promise_all.
  now rewrite (first_failure_all_return settled calls l Hall).
Qed.

(** When a call fails, [Promise.all] fails with the failure of one of the
    calls. *)
Lemma promise_all_fails {A} (settled : list nat) (calls : list (outcome E A)) (e : E) :
  In (Throws e) calls ->
  exists e', promise_all settled calls = Throws e' /\ In (Throws e') calls.
Proof.
  intros Hin. unfold promise_all.
  destruct (first_failure settled calls) as [e'|] eqn:Hfirst.
  - exists e'. split; [reflexivity|]. now apply first_failure_In in Hfirst.
  - destruct (sequence_fails calls e Hin) as [e' He'].
    exists e'. split; [exact He'|]. now apply sequence_Throws.
Qed.

Lemma concat_map_map {A B} (g : A -> B) (ls : list (list A)) :
  concat (map (map g) ls) = map g (concat ls).
Proof. symmetry. apply concat_map. Qed.

(** Within the batch size, a failed batch request is answered by the
    element-wise calls. *)
Lemma embedBatch_fallback_within_limit (fuel : nat) (settled : list nat) (size : Z)
    (texts : list string) (e : E) :
  Z.of_nat (length texts) <= size ->
  callSingle (Batch texts) parseBatch = Throws e ->
  embedBatch fuel settled (Some size) texts
  = Some (callBatch settled texts parseSingle).
Proof.
  intros Hle Hfail. unfold embedBatch. cbv zeta.
  destruct (Z.ltb_spec size (Z.of_nat (length texts))); [lia|].
  now rewrite Hfail.
Qed.

(** A list longer than a positive batch size: the loop ends with chunks
    that make up the list, and [embedBatch] is [Promise.all] over one
    request per chunk. *)
Lemma embedBatch_chunks (fuel : nat) (settled : list nat) (size : Z)
    (texts : list string) :
  0 < size -> size < Z.of_nat (length texts) -> (length texts <= fuel)%nat ->
  exists chunks,
    chunk_loop fuel size 0 texts [] = Some chunks /\
    concat chunks = texts /\
    Forall (fun c => 0 < Z.of_nat (length c) <= size) chunks /\
    embedBatch fuel settled (Some size) texts
    = Some (bind (promise_all settled
                    (map (fun c => callSingle (Batch c) parseBatch) chunks))
              (fun parts => Returns (concat parts))).
Proof.
  intros Hsize Hlong Hfuel.
  destruct (chunk_loop_spec size texts Hsize fuel 0 []) as (cs & Hloop & Hcat & Hall);
    [lia | lia |].
  cbn in Hloop, Hcat. exists cs.
  split; [exact Hloop|]. split; [exact Hcat|]. split; [exact Hall|].
  unfold embedBatch. cbv zeta.
  destruct (Z.ltb_spec size (Z.of_nat (length texts))); [|lia]. now rewrite Hloop.
Qed.

(** Beyond the batch size there is no fallback: when the request of a chunk
    fails, [embedBatch] fails with the failure of a chunk request. *)
Lemma embedBatch_chunk_failure (fuel : nat) (settled : list nat) (size : Z)
    (texts : list string) :
  0 < size -> size < Z.of_nat (length texts) -> (length texts <= fuel)%nat ->
  forall chunks, chunk_loop fuel size 0 texts [] = Some chunks ->
  forall c e, In c chunks -> callSingle (Batch c) parseBatch = Throws e ->
  exists c' e', In c' chunks /\
    callSingle (Batch c') parseBatch = Throws e' /\
    embedBatch fuel settled (Some size) texts = Some (Throws e').
Proof.
  intros Hsize Hlong Hfuel chunks Hloop c e Hc Hfail.
  destruct (embedBatch_chunks fuel settled size texts Hsize Hlong Hfuel)
    as (cs & Hloop' & _ & _ & Hrun).
  rewrite Hloop in Hloop'. injection Hloop' as <-.
  destruct (promise_all_fails settled
              (map (fun c => callSingle (Batch c) parseBatch) chunks) e)
    as (e' & Hall & Hin).
  { apply in_map_iff. exists c. split; [exact Hfail | exact Hc]. }
  apply in_map_iff in Hin. destruct Hin as (c' & Hc' & Hin).
  exists c', e'. split; [exact Hin|]. split; [exact Hc'|].
  rewrite Hrun, Hall. reflexivity.
Qed.

(** C4, as amended: a list longer than a positive [maxBatchSize] is cut
    into consecutive non-empty chunks of at most [maxBatchSize] texts that
    make up the list; the loop ends and [embedBatch] answers with the
    concatenation of the chunk results in input order, whatever the order
    in which the chunk requests settle. When the provider answers every
    batch with one vector per text, the result has one vector per input
    text and is the result of a single unchunked call. With a
    [maxBatchSize] of zero or less and a list that is not empty the loop
    never ends and [embedBatch] does not return. *)
Theorem embedBatch_chunked (settled : list nat) (size : Z) (texts : list string) :
  (0 < size -> size < Z.of_nat (length texts) ->
   forall fuel, (length texts <= fuel)%nat ->
   exists chunks,
     chunk_loop fuel size 0 texts [] = Some chunks /\
     concat chunks = texts /\
     Forall (fun c => 0 < Z.of_nat (length c) <= size) chunks /\
     embedBatch fuel settled (Some size) texts
     = Some (bind (promise_all settled
                     (map (fun c => callSingle (Batch c) parseBatch) chunks))
               (fun parts => Returns (concat parts))) /\
     (forall vec : string -> Vec,
        (forall c, callSingle (Batch c) parseBatch = Returns (map vec c)) ->
        embedBatch fuel settled (Some size) texts = Some (Returns (map vec texts)) /\
        length (map vec texts) = length texts /\
        callSingle (Batch texts) parseBatch = Returns (map vec texts))) /\
  (size <= 0 -> texts <> [] ->
   forall fuel, embedBatch fuel settled (Some size) texts = None).
Proof.
  split.
  - intros Hsize Hlong fuel Hfuel.
    destruct (embedBatch_chunks fuel settled size texts Hsize Hlong Hfuel)
      as (cs & Hloop & Hcat & Hall & Hrun).
    exists cs. split; [exact Hloop|]. split; [exact Hcat|]. split; [exact Hall|].
    split; [exact Hrun|].
    intros vec Hvec. split; [|split].
    + rewrite Hrun.
      rewrite (promise_all_Returns settled _ (map (map vec) cs)).
      * cbn. now rewrite concat_map_map, Hcat.
      * apply sequence_map_Returns. intros c _. apply Hvec.
    + apply length_map.
    + apply Hvec.
  - intros Hsize Hne fuel. now apply embedBatch_never_returns.
Qed.

End Provider.

(** *** Two providers to run the code on *)

(** A single-precision value that is a whole number, or an infinity. *)
Inductive single : Type :=
| Finite (n : Z)
| Infinite (negative : bool).

(** A whole number [m >= 0] rounded to single precision: 24 significant
    bits, ties to the even neighbour; [None] past the largest single. *)
Definition fround_magnitude (m : Z) : option Z :=
  if m <? 2 ^ 24 then Some m
  else
    let e := Z.log2 m - 23 in
    let q := Z.shiftr m e in
    let r := m - Z.shiftl q e in
    let half := 2 ^ (e - 1) in
    let q' := if (half <? r) || ((r =? half) && Z.odd q) then q + 1 else q in
    let v := Z.shiftl q' e in
    if v <? 2 ^ 128 then Some v else None.

Definition fround (n : Z) : single :=
  match fround_magnitude (Z.abs n) with
  | Some v => Finite (if n <? 0 then - v else v)
  | None => Infinite (n <? 0)
  end.

Fixpoint numbers (xs : list json) : option (list Z) :=
  match xs with
  | [] => Some []
  | JNum n :: rest =>
      match numbers rest with
      | Some ns => Some (n :: ns)
      | None => None
      end
  | _ :: rest => None
  end.

(** [new Float32Array(v)]: an array of numbers becomes the array of their
    single-precision values. [other] is the constructor on every other
    argument (a length, an array-like object, an array with elements that
    are converted to numbers first); the providers below do not answer
    with such values. *)
Definition f32 (other : option json -> outcome string (list single))
    (v : option json) : outcome string (list single) :=
  match v with
  | Some (JArr xs) =>
      match numbers xs with
      | Some ns => Returns (map fround ns)
      | None => other v
      end
  | _ => other v
  end.

Definition embedding_json (t : string) : json :=
  JObj [("embedding", JArr [JNum (Z.of_nat (String.length t))])].

(** Answers every request, one embedding per text. *)
Definition steady_provider (input : EmbedInput) : outcome string json :=
  match input with
  | Single t => Returns (JObj [("data", JArr [embedding_json t])])
  | Batch ts => Returns (JObj [("data", JArr (map embedding_json ts))])
  end.

(** Rejects every request with a list of texts and answers the requests
    with one text. *)
Definition single_only_provider (input : EmbedInput) : outcome string json :=
  match input with
  | Single t => Returns (JObj [("data", JArr [embedding_json t])])
  | Batch _ => Throws "HTTP 400: batch rejected"
  end.

Definition text_vec (t : string) : list single :=
  [fround (Z.of_nat (String.length t))].

Lemma steady_provider_pointwise (other : option json -> outcome string (list single))
    (c : list string) :
  callSingle string steady_provider (Batch c)
    (parseBatch string (list single) (f32 other) (fun m => m) "TypeError")
  = Returns (map text_vec c).
Proof.
  unfold callSingle, parseBatch. cbn [steady_provider bind obj_get assoc_get String.eqb
    Ascii.eqb Bool.eqb].
  induction c as [|t c IH]; [reflexivity|].
  cbn [map sequence bind embedding_of embedding_json obj_get assoc_get String.eqb
    Ascii.eqb Bool.eqb f32 numbers].
  cbn [map] in IH. rewrite IH. reflexivity.
Qed.

(** When every call fails with the same error, that is the failure of
    [Promise.all], whichever call fails first. *)
Lemma promise_all_same_failure {A} (settled : list nat) (e : string)
    (c : outcome string A) (calls : list (outcome string A)) :
  Forall (fun c' => c' = Throws e) (c :: calls) ->
  promise_all settled (c :: calls) = Throws e.
Proof.
  intros Hall. destruct (promise_all_fails string settled (c :: calls) e)
    as (e' & -> & Hin).
  { left. now inversion Hall. }
  rewrite List.Forall_forall in Hall. specialize (Hall _ Hin). congruence.
Qed.

Lemma embedBatch_chunked_witness :
  embedBatch string (list single) (f32 (fun _ => Returns [])) (fun m => m) "TypeError"
    steady_provider 3 [1%nat; 0%nat] (Some 2) ["a"; "bb"; "ccc"]
  = Some (Returns [[Finite 1]; [Finite 2]; [Finite 3]]).
Proof.
  destruct (proj1 (embedBatch_chunked string (list single) (f32 (fun _ => Returns []))
                     (fun m => m) "TypeError" steady_provider [1%nat; 0%nat] 2
                     ["a"; "bb"; "ccc"]))
    with (fuel := 3%nat)
    as (chunks & _ & _ & _ & _ & Hpoint); [lia | cbn; lia | cbn; lia |].
  exact (proj1 (Hpoint text_vec (steady_provider_pointwise _))).
Defined.

(** C4 does not hold as stated for a [maxBatchSize] of zero, which the
    constructor accepts: the list [["a"]] is longer, and [embedBatch]
    returns with no amount of fuel. *)
Lemma embedBatch_zero_size_diverges :
  ~ exists fuel settled r,
      embedBatch string (list single) (f32 (fun _ => Returns [])) (fun m => m)
        "TypeError" steady_provider fuel settled (Some 0) ["a"]
      = Some r.
Proof.
  intros (fuel & settled & r & Hr).
  rewrite embedBatch_never_returns in Hr; [discriminate | lia | discriminate].
Qed.

(** C3, the failing input: with [maxBatchSize = 2] and three texts, a
    provider that rejects batches makes [embedBatch] fail with the error of
    the chunk requests, although the element-wise calls succeed and the
    same texts within the batch size are answered by them. *)
Theorem embedBatch_chunked_no_fallback
    (other : option json -> outcome string (list single)) (settled : list nat) :
  embedBatch string (list single) (f32 other) (fun m => m) "TypeError"
    single_only_provider 3 settled (Some 2) ["a"; "bb"; "ccc"]
  = Some (Throws "HTTP 400: batch rejected") /\
  callBatch string single_only_provider settled ["a"; "bb"; "ccc"]
    (parseSingle string (list single) (f32 other) (fun m => m))
  = Returns [[Finite 1]; [Finite 2]; [Finite 3]] /\
  embedBatch string (list single) (f32 other) (fun m => m) "TypeError"
    single_only_provider 3 settled (Some 3) ["a"; "bb"; "ccc"]
  = Some (Returns [[Finite 1]; [Finite 2]; [Finite 3]]).
Proof.
  assert (Hsingles : callBatch string single_only_provider settled ["a"; "bb"; "ccc"]
                       (parseSingle string (list single) (f32 other) (fun m => m))
                     = Returns [[Finite 1]; [Finite 2]; [Finite 3]]).
  { unfold callBatch. now apply promise_all_Returns. }
  split; [|split; [exact Hsingles|]].
  2: { change (embedBatch string (list single) (f32 other) (fun m => m) "TypeError"
                 single_only_provider 3 settled (Some 3) ["a"; "bb"; "ccc"])
         with (Some (callBatch string single_only_provider settled ["a"; "bb"; "ccc"]
                       (parseSingle string (list single) (f32 other) (fun m => m)))).
       now rewrite Hsingles. }
  change (embedBatch string (list single) (f32 other) (fun m => m) "TypeError"
            single_only_provider 3 settled (Some 2) ["a"; "bb"; "ccc"])
    with (Some (bind (promise_all settled
                        [ @Throws string (list (list single)) "HTTP 400: batch rejected";
                          Throws "HTTP 400: batch rejected" ])
                  (fun parts => Returns (concat parts)))).
  rewrite (promise_all_same_failure settled "HTTP 400: batch rejected");
    [reflexivity|].
  repeat constructor.
Qed.

End Voyage.

(* ===================================================================== *)
(** ** Project manager *)
(* ===================================================================== *)

Module ProjectManager.
Import Js.

(** *** The tables *)

(** A row of [projects], keyed by [id]. [description] and [metadata] are
    nullable. The [metadata] column holds a text written by
    [JSON.stringify]; it is identified with the value it denotes, which
    [JSON.parse] gives back. *)
Record ProjectRow : Type := mkProjectRow {
  row_name : string;
  row_description : option string;
  row_created_at : Z;
  row_updated_at : Z;
  row_metadata : option json
}.

(** A [Project] object; a [None] field is [null] or [undefined]. *)
Record Project : Type := mkProject {
  id : string;
  name : string;
  description : option string;
  created_at : Z;
  updated_at : Z;
  metadata : option json
}.

(** [CreateProjectInput] *)
Record CreateProjectInput : Type := mkCreateInput {
  new_name : string;
  new_description : option string;
  new_metadata : option json
}.

(** [UpdateProjectInput]; a [None] field is [undefined]. *)
Record UpdateProjectInput : Type := mkUpdateInput {
  in_name : option string;
  in_description : option string;
  in_metadata : option json
}.

(** A row of [project_repositories], keyed by [id]. *)
Record RepositoryRow : Type := mkRepositoryRow {
  repo_project_id : string;
  repository_path : string;
  repository_name : string;
  added_at : Z;
  last_indexed : option Z
}.

(** The columns of [entities] and [files] that [removeRepository] reads;
    their [project_id] is nullable. *)
Record EntityRow : Type := mkEntityRow {
  entity_id : string;
  entity_project_id : option string;
  file_path : string
}.

Record FileRow : Type := mkFileRow {
  file_project_id : option string;
  path : string
}.

Record Store : Type := mkStore {
  repositories : gmap string RepositoryRow;
  entities : list EntityRow;
  files : list FileRow
}.

(** *** SQL helpers *)

(** [x || null] on a string. *)
Definition or_null (s : option string) : option string :=
  match s with
  | Some s => if String.eqb s "" then None else Some s
  | None => None
  end.

(** [m ? JSON.stringify(m) : null] *)
Definition stringify_or_null (m : option json) : option json :=
  match m with
  | Some j => if truthy j then Some j else None
  | None => None
  end.

(** SQLite folds the case of ASCII letters in [LIKE]. *)
Definition fold_case (c : ascii) : ascii :=
  let n := nat_of_ascii c in
  if ((65 <=? n)%nat && (n <=? 90)%nat)%bool then ascii_of_nat (n + 32) else c.

(** Texts reach SQLite as UTF-8: a character is one byte, or a lead byte
    (from 0xC0 on) with the continuation bytes (0x80 to 0xBF) that follow
    it. *)
Definition lead_byte (c : ascii) : bool := (192 <=? nat_of_ascii c)%nat.

Definition continuation_byte (c : ascii) : bool :=
  ((128 <=? nat_of_ascii c)%nat && (nat_of_ascii c <? 192)%nat)%bool.

Fixpoint skip_continuation (s : string) : string :=
  match s with
  | EmptyString => EmptyString
  | String d s' => if continuation_byte d then skip_continuation s' else s
  end.

(** What follows the first character of the text [String d s']. *)
Definition after_char (d : ascii) (s' : string) : string :=
  if lead_byte d then skip_continuation s' else s'.

(** [%] followed by the pattern [rest], against a text: [rest] is tried
    where a character of the text begins, and at its end. [inside] says
    that the bytes just before belong to a character that began with a
    lead byte. *)
Fixpoint any_run (rest : string -> bool) (inside : bool) (s : string) : bool :=
  match s with
  | EmptyString => rest EmptyString
  | String d s' =>
      if (inside && continuation_byte d)%bool then any_run rest true s'
      else rest s || any_run rest (lead_byte d) s'
  end.

(** [s LIKE p]: [%] stands for any run of characters and [_] for any one
    character; there is no escape character, and the case of ASCII
    letters is folded. *)
Fixpoint like (p s : string) : bool :=
  match p with
  | EmptyString =>
      match s with
      | EmptyString => true
      | String _ _ => false
      end
  | String c p' =>
      if Ascii.eqb c "%" then any_run (like p') false s
      else
        match s with
        | EmptyString => false
        | String d s' =>
            if Ascii.eqb c "_" then like p' (after_char d s')
            else Ascii.eqb (fold_case c) (fold_case d) && like p' s'
        end
  end.

(** [project_id = ?] on a nullable column. *)
Definition project_is (pid : string) (col : option string) : bool :=
  match col with
  | Some p => String.eqb p pid
  | None => false
  end.

(** *** Operations *)

Definition project_of_row (pid : string) (row : ProjectRow) : Project :=
  {| id := pid;
     name := row_name row;
     description := row_description row;
     created_at := row_created_at row;
     updated_at := row_updated_at row;
     metadata := row_metadata row |}.

Definition getProject (db : gmap string ProjectRow) (projectId : string)
    : option Project :=
  match db !! projectId with
  | None => None
  | Some row => Some (project_of_row projectId row)
  end.

(** [createProject] with the id [nanoid()] gives and the time [Date.now()]
    gives. *)
Definition createProject (db : gmap string ProjectRow) (now : Z) (fresh : string)
    (input : CreateProjectInput) : gmap string ProjectRow * Project :=
  let project :=
    {| id := fresh; name := new_name input; description := new_description input;
       created_at := now; updated_at := now; metadata := new_metadata input |} in
  (<[fresh := mkProjectRow (name project) (or_null (description project))
                (created_at project) (updated_at project)
                (stringify_or_null (metadata project))]> db,
   project).

(** [UPDATE projects SET name = ?, description = ?, metadata = ?,
    updated_at = ? WHERE id = ?] *)
Definition update_row (n : string) (d : option string) (m : option json) (t : Z)
    (row : ProjectRow) : ProjectRow :=
  mkProjectRow n d (row_created_at row) t m.

Definition updateProject (db : gmap string ProjectRow) (now : Z) (projectId : string)
    (input : UpdateProjectInput) : gmap string ProjectRow * option Project :=
  match getProject db projectId with
  | None => (db, None)
  | Some existing =>
      let updated :=
        {| id := id existing;
           name := match in_name input with
                   | Some n => n
                   | None => name existing
                   end;
           description := match in_description input with
                          | Some d => Some d
                          | None => description existing
                          end;
           created_at := created_at existing;
           updated_at := now;
           metadata := match in_metadata input with
                       | Some m => Some m
                       | None => metadata existing
                       end |} in
      (alter (update_row (name updated) (or_null (description updated))
                (stringify_or_null (metadata updated)) (updated_at updated))
         projectId db,
       Some updated)
  end.

Definition deleteProject (db : gmap string ProjectRow) (projectId : string)
    : gmap string ProjectRow * bool :=
  match db !! projectId with
  | Some _ => (delete projectId db, true)
  | None => (db, false)
  end.

(** The tables [ProjectManager] produces, starting from the empty one. *)
Inductive reachable : gmap string ProjectRow -> Prop :=
| reach_empty : reachable ∅
| reach_create db now fresh input :
    reachable db -> reachable (fst (createProject db now fresh input))
| reach_update db now pid input :
    reachable db -> reachable (fst (updateProject db now pid input))
| reach_delete db pid :
    reachable db -> reachable (fst (deleteProject db pid)).

(** What every row written by the manager satisfies. *)
Definition row_normal (row : ProjectRow) : Prop :=
  row_description row <> Some "" /\
  (forall j, row_metadata row = Some j -> truthy j = true).

(** [DELETE FROM project_repositories WHERE id = ?], with [changes]. *)
Definition delete_repository (repositoryId : string)
    (repos : gmap string RepositoryRow) : gmap string RepositoryRow * Z :=
  (delete repositoryId repos,
   match repos !! repositoryId with
   | Some _ => 1
   | None => 0
   end).

(** The rows [DELETE ... WHERE project_id = ? AND <path> LIKE ?] removes. *)
Definition entity_hit (pid pattern : string) (e : EntityRow) : bool :=
  project_is pid (entity_project_id e) && like pattern (file_path e).

Definition file_hit (pid pattern : string) (f : FileRow) : bool :=
  project_is pid (file_project_id f) && like pattern (path f).

Definition removeRepository (st : Store) (repositoryId : string) : Store * bool :=
  match repositories st !! repositoryId with
  | None => (st, false)
  | Some repo =>
      let (repos', changes) := delete_repository repositoryId (repositories st) in
      if 0 <? changes then
        let pattern := String.append (repository_path repo) "%" in
        (mkStore repos'
           (List.filter (fun e => negb (entity_hit (repo_project_id repo) pattern e))
              (entities st))
           (List.filter (fun f => negb (file_hit (repo_project_id repo) pattern f))
              (files st)),
         true)
      else (mkStore repos' (entities st) (files st), false)
  end.

(** *** The rows the manager writes are normal *)

Lemma or_null_normal (s : option string) : or_null s <> Some "".
Proof.
  unfold or_null. destruct s as [s|]; [|discriminate].
  destruct (String.eqb_spec s ""); [discriminate|]. congruence.
Qed.

Lemma stringify_or_null_truthy (m : option json) (j : json) :
  stringify_or_null m = Some j -> truthy j = true.
Proof.
  unfold stringify_or_null. destruct m as [j'|]; [|discriminate].
  destruct (truthy j') eqn:Ht; [|discriminate]. now intros [= <-].
Qed.

Lemma or_null_id (s : option string) : s <> Some "" -> or_null s = s.
Proof.
  unfold or_null. destruct s as [s|]; [|reflexivity].
  destruct (String.eqb_spec s "") as [->|]; [contradiction|reflexivity].
Qed.

Lemma stringify_or_null_id (m : option json) :
  (forall j, m = Some j -> truthy j = true) -> stringify_or_null m = m.
Proof.
  unfold stringify_or_null. destruct m as [j|]; [|reflexivity].
  intros H. now rewrite (H j eq_refl).
Qed.

Lemma reachable_normal (db : gmap string ProjectRow) :
  reachable db -> forall pid row, db !! pid = Some row -> row_normal row.
Proof.
  induction 1 as [|db now fresh input _ IH|db now pid' input _ IH|db pid' _ IH];
    intros pid row Hrow.
  - now rewrite lookup_empty in Hrow.
  - cbn in Hrow. destruct (decide (fresh = pid)) as [->|Hne].
    + rewrite lookup_insert_eq in Hrow. injection Hrow as <-. split; cbn.
      * apply or_null_normal.
      * apply stringify_or_null_truthy.
    + rewrite lookup_insert_ne in Hrow by exact Hne. eauto.
  - unfold updateProject, getProject in Hrow.
    destruct (db !! pid') as [old|] eqn:Hold; cbn in Hrow; [|eauto].
    destruct (decide (pid' = pid)) as [->|Hne].
    + rewrite lookup_alter_eq, Hold in Hrow. cbn in Hrow. injection Hrow as <-.
      split; cbn.
      * apply or_null_normal.
      * apply stringify_or_null_truthy.
    + rewrite lookup_alter_ne in Hrow by exact Hne. eauto.
  - unfold deleteProject in Hrow.
    destruct (db !! pid') eqn:Hold; cbn in Hrow; [|eauto].
    destruct (decide (pid' = pid)) as [->|Hne].
    + now rewrite lookup_delete_eq in Hrow.
    + rewrite lookup_delete_ne in Hrow by exact Hne. eauto.
Qed.

(** *** Updating a project *)

(** What is asked of an update of an existing project: the update
    succeeds and every column whose input is undefined holds afterwards
    what it held before. *)
Definition frame_contract (db : gmap string ProjectRow) (now : Z) (pid : string)
    (input : UpdateProjectInput) : Prop :=
  forall row, db !! pid = Some row ->
    exists db' updated row',
      updateProject db now pid input = (db', Some updated) /\
      db' !! pid = Some row' /\
      (in_name input = None -> row_name row' = row_name row) /\
      (in_description input = None -> row_description row' = row_description row) /\
      (in_metadata input = None -> row_metadata row' = row_metadata row).

(** C9, as amended: [updateProject] on a missing id returns [null] and
    leaves the table as it is; on an existing project it keeps [id] and
    [created_at], sets [updated_at] to the call time, stores the supplied
    values, leaves [name] at its stored value when the input leaves it
    undefined, and touches no other project. A description or metadata the
    input leaves undefined is written back through [|| null] and
    [? JSON.stringify(...) : null] like a supplied one: it keeps its stored
    value unless that is an empty description or a falsy metadata value,
    which become [NULL]. On a table produced by the manager itself neither
    occurs and the columns are left as they are. *)
Theorem updateProject_frame (db : gmap string ProjectRow) (now : Z) (pid : string)
    (input : UpdateProjectInput) :
  (db !! pid = None -> updateProject db now pid input = (db, None)) /\
  (forall row, db !! pid = Some row ->
     exists db' updated row',
       updateProject db now pid input = (db', Some updated) /\
       db' !! pid = Some row' /\
       id updated = pid /\
       created_at updated = row_created_at row /\
       row_created_at row' = row_created_at row /\
       updated_at updated = now /\
       row_updated_at row' = now /\
       (in_name input = None ->
          name updated = row_name row /\ row_name row' = row_name row) /\
       (in_description input = None ->
          description updated = row_description row /\
          row_description row' = or_null (row_description row) /\
          (row_description row <> Some "" ->
           row_description row' = row_description row)) /\
       (in_metadata input = None ->
          metadata updated = row_metadata row /\
          row_metadata row' = stringify_or_null (row_metadata row) /\
          ((forall j, row_metadata row = Some j -> truthy j = true) ->
           row_metadata row' = row_metadata row)) /\
       (forall n, in_name input = Some n -> name updated = n /\ row_name row' = n) /\
       (forall d, in_description input = Some d ->
          description updated = Some d /\ row_description row' = or_null (Some d)) /\
       (forall m, in_metadata input = Some m ->
          metadata updated = Some m /\
          row_metadata row' = stringify_or_null (Some m)) /\
       (forall other, other <> pid -> db' !! other = db !! other) /\
       (reachable db ->
          (in_description input = None ->
           row_description row' = row_description row) /\
          (in_metadata input = None -> row_metadata row' = row_metadata row))).
Proof.
  split.
  - intros Hnone. unfold updateProject, getProject. now rewrite Hnone.
  - intros row Hrow.
    unfold updateProject, getProject. rewrite Hrow. cbn.
    eexists _, _, _. split; [reflexivity|]. split.
    { rewrite lookup_alter_eq, Hrow. reflexivity. }
    cbn. do 5 (split; [reflexivity|]).
    split; [intros ->; split; reflexivity|].
    split.
    { intros ->. split; [reflexivity|]. split; [reflexivity|]. apply or_null_id. }
    split.
    { intros ->. split; [reflexivity|]. split; [reflexivity|].
      apply stringify_or_null_id. }
    split; [intros n ->; split; reflexivity|].
    split; [intros d ->; split; reflexivity|].
    split; [intros m ->; split; reflexivity|].
    split; [intros other Hne; apply lookup_alter_ne; congruence|].
    intros Hreach.
    destruct (reachable_normal db Hreach pid row Hrow) as [Hdesc Hmeta].
    split; intros ->; [now apply or_null_id | now apply stringify_or_null_id].
Qed.

Lemma updateProject_frame_witness :
  exists db' updated row',
    updateProject
      (fst (createProject ∅ 100 "p1" (mkCreateInput "demo" (Some "first") None)))
      200 "p1" (mkUpdateInput (Some "renamed") None None)
    = (db', Some updated) /\
    db' !! "p1" = Some row' /\
    name updated = "renamed" /\
    description updated = Some "first" /\
    row_description row' = Some "first" /\
    created_at updated = 100 /\
    updated_at updated = 200.
Proof.
  destruct (proj2 (updateProject_frame
                     (fst (createProject ∅ 100 "p1"
                             (mkCreateInput "demo" (Some "first") None)))
                     200 "p1" (mkUpdateInput (Some "renamed") None None))
              (mkProjectRow "demo" (Some "first") 100 100 None)
              (lookup_insert_eq _ _ _))
    as (db' & updated & row' & Hrun & Hrow' & _ & Hc & _ & Hu & _ & _ & Hd & _ & Hn
        & _ & _ & _ & Hreach).
  exists db', updated, row'. split; [exact Hrun|]. split; [exact Hrow'|].
  split; [exact (proj1 (Hn "renamed" eq_refl))|].
  split; [exact (proj1 (Hd eq_refl))|].
  split.
  { rewrite (proj1 (Hreach (reach_create ∅ 100 "p1"
                              (mkCreateInput "demo" (Some "first") None) reach_empty))
               eq_refl).
    reflexivity. }
  split; [exact Hc | exact Hu].
Defined.

(** Outside the manager's own tables the stored value can change: an
    empty description, which the manager never writes, becomes [NULL]. *)
Lemma updateProject_empty_description :
  snd (updateProject {["p1" := mkProjectRow "demo" (Some "") 100 100 None]}
         200 "p1" (mkUpdateInput None None None))
  = Some (mkProject "p1" "demo" (Some "") 100 200 None) /\
  fst (updateProject {["p1" := mkProjectRow "demo" (Some "") 100 100 None]}
         200 "p1" (mkUpdateInput None None None)) !! "p1"
  = Some (mkProjectRow "demo" None 100 200 None).
Proof.
  unfold updateProject, getProject. rewrite lookup_singleton_eq. cbn.
  split; [reflexivity|]. now rewrite lookup_alter_eq, lookup_singleton_eq.
Qed.

(** The same for a metadata column that holds the JSON text of a falsy
    value, here [0]. *)
Lemma updateProject_falsy_metadata :
  fst (updateProject {["p1" := mkProjectRow "demo" None 100 100 (Some (JNum 0))]}
         200 "p1" (mkUpdateInput (Some "renamed") None None)) !! "p1"
  = Some (mkProjectRow "renamed" None 100 200 None).
Proof.
  unfold updateProject, getProject. rewrite lookup_singleton_eq. cbn.
  now rewrite lookup_alter_eq, lookup_singleton_eq.
Qed.

(** C9 does not hold as stated: a stored project whose description is the
    empty string has it rewritten to [NULL] by an update that supplies no
    field at all, and one whose metadata is the falsy value [0] loses it
    when it is renamed. *)
Lemma updateProject_rewrites_unsupplied :
  ~ frame_contract {["p1" := mkProjectRow "demo" (Some "") 100 100 None]}
      200 "p1" (mkUpdateInput None None None) /\
  ~ frame_contract {["p1" := mkProjectRow "demo" None 100 100 (Some (JNum 0))]}
      200 "p1" (mkUpdateInput (Some "renamed") None None).
Proof.
  split.
  - intros Hframe.
    destruct (Hframe (mkProjectRow "demo" (Some "") 100 100 None)
                (lookup_singleton_eq _ _))
      as (db' & updated & row' & Hrun & Hrow' & _ & Hdesc & _).
    destruct updateProject_empty_description as [_ Hstored].
    rewrite Hrun in Hstored. cbn [fst] in Hstored.
    rewrite Hrow' in Hstored. injection Hstored as ->.
    specialize (Hdesc eq_refl). discriminate.
  - intros Hframe.
    destruct (Hframe (mkProjectRow "demo" None 100 100 (Some (JNum 0)))
                (lookup_singleton_eq _ _))
      as (db' & updated & row' & Hrun & Hrow' & _ & _ & Hmeta).
    pose proof updateProject_falsy_metadata as Hstored.
    rewrite Hrun in Hstored. cbn [fst] in Hstored.
    rewrite Hrow' in Hstored. injection Hstored as ->.
    specialize (Hmeta eq_refl). discriminate.
Qed.

(** *** Removing a repository *)

Lemma lead_byte_fold_case (d : ascii) : lead_byte (fold_case d) = lead_byte d.
Proof. destruct d as [[] [] [] [] [] [] [] []]; reflexivity. Qed.

(** A byte that equals an ASCII byte up to case is no lead byte. *)
Lemma fold_case_no_lead (c d : ascii) :
  lead_byte c = false -> Ascii.eqb (fold_case c) (fold_case d) = true ->
  lead_byte d = false.
Proof.
  intros Hc Heq. apply Ascii.eqb_eq in Heq.
  now rewrite <- (lead_byte_fold_case d), <- Heq, lead_byte_fold_case.
Qed.

Lemma any_run_end (inside : bool) (s : string) : any_run (like "") inside s = true.
Proof.
  revert inside. induction s as [|d s IH]; intros inside; [reflexivity|].
  cbn [any_run]. destruct (inside && continuation_byte d)%bool; [apply IH|].
  rewrite IH. apply orb_true_r.
Qed.

Lemma like_percent (s : string) : like "%" s = true.
Proof. apply any_run_end. Qed.

(** [%] may stand for nothing. *)
Lemma like_percent_here (p s : string) :
  like p s = true -> like (String "%" p) s = true.
Proof.
  intros H. change (any_run (like p) false s = true).
  destruct s as [|d s]; cbn [any_run andb]; [exact H|]. now rewrite H.
Qed.

(** [%] may take a one-byte character more. *)
Lemma like_skip (p s : string) (d : ascii) :
  lead_byte d = false ->
  like (String "%" p) s = true -> like (String "%" p) (String d s) = true.
Proof.
  intros Hd H. change (any_run (like p) false (String d s) = true).
  change (any_run (like p) false s = true) in H.
  cbn [any_run andb]. rewrite Hd, H. apply orb_true_r.
Qed.

(** A pattern followed by [%] matches every text that begins with the
    pattern read as plain text. *)
Lemma like_prefix (p s : string) :
  String.prefix p s = true -> like (String.append p "%") s = true.
Proof.
  revert s. induction p as [|c p IH]; intros s Hpre.
  - apply like_percent.
  - destruct s as [|d s]; [discriminate|].
    cbn in Hpre. destruct (ascii_dec c d) as [<-|]; [|discriminate].
    specialize (IH s Hpre).
    change (String.append (String c p) "%") with (String c (String.append p "%")).
    destruct (Ascii.eqb_spec c "%") as [->|Hc].
    + apply like_skip; [reflexivity|]. now apply like_percent_here.
    + cbn [like]. destruct (Ascii.eqb_spec c "%"); [contradiction|].
      destruct (Ascii.eqb_spec c "_") as [->|_]; [exact IH|].
      now rewrite IH, Ascii.eqb_refl.
Qed.

Lemma project_is_Some (pid : string) : project_is pid (Some pid) = true.
Proof. apply String.eqb_refl. Qed.

Lemma project_is_not (pid : string) (col : option string) :
  col <> Some pid -> project_is pid col = false.
Proof.
  intros Hne. destruct col as [q|]; [|reflexivity].
  cbn. apply String.eqb_neq. congruence.
Qed.

(** What holds of [removeRepository] on every store: an unknown id returns
    [false] and leaves the store as it is; a known id returns [true],
    deletes the repository row and nothing else from its table, deletes
    every entity and file row of the repository's project whose path
    begins with the repository path, and keeps the rows of every other
    project. *)
Lemma removeRepository_reaches_prefix (st : Store) (rid : string) :
  (repositories st !! rid = None -> removeRepository st rid = (st, false)) /\
  (forall repo, repositories st !! rid = Some repo ->
     exists st',
       removeRepository st rid = (st', true) /\
       repositories st' = delete rid (repositories st) /\
       (forall e, In e (entities st) ->
          entity_project_id e = Some (repo_project_id repo) ->
          String.prefix (repository_path repo) (file_path e) = true ->
          ~ In e (entities st')) /\
       (forall f, In f (files st) ->
          file_project_id f = Some (repo_project_id repo) ->
          String.prefix (repository_path repo) (path f) = true ->
          ~ In f (files st')) /\
       (forall e, In e (entities st') -> In e (entities st)) /\
       (forall f, In f (files st') -> In f (files st)) /\
       (forall e, In e (entities st) ->
          entity_project_id e <> Some (repo_project_id repo) ->
          In e (entities st')) /\
       (forall f, In f (files st) ->
          file_project_id f <> Some (repo_project_id repo) ->
          In f (files st'))).
Proof.
  split.
  - intros Hnone. unfold removeRepository. now rewrite Hnone.
  - intros repo Hrepo. unfold removeRepository, delete_repository.
    rewrite Hrepo. cbn. eexists. split; [reflexivity|]. cbn.
    split; [reflexivity|].
    split; [|split; [|split; [|split; [|split]]]].
    + intros e _ Hpid Hpre Hin. apply filter_In in Hin as [_ Hkeep].
      unfold entity_hit in Hkeep.
      now rewrite Hpid, project_is_Some, (like_prefix _ _ Hpre) in Hkeep.
    + intros f _ Hpid Hpre Hin. apply filter_In in Hin as [_ Hkeep].
      unfold file_hit in Hkeep.
      now rewrite Hpid, project_is_Some, (like_prefix _ _ Hpre) in Hkeep.
    + intros e Hin. now apply filter_In in Hin.
    + intros f Hin. now apply filter_In in Hin.
    + intros e Hin Hpid. apply filter_In. split; [exact Hin|].
      unfold entity_hit. now rewrite (project_is_not _ _ Hpid).
    + intros f Hin Hpid. apply filter_In. split; [exact Hin|].
      unfold file_hit. now rewrite (project_is_not _ _ Hpid).
Qed.

(** A project with two repositories, [/srv/my_app] and [/srv/my-app], and
    the rows indexed from them, from a third directory and by another
    project. *)
Definition two_repositories : Store :=
  mkStore
    (<["r1" := mkRepositoryRow "p1" "/srv/my_app" "my_app" 100 None]>
       (<["r2" := mkRepositoryRow "p1" "/srv/my-app" "my-app" 200 None]> ∅))
    [ mkEntityRow "e1" (Some "p1") "/srv/my_app/src/a.ts";
      mkEntityRow "e2" (Some "p1") "/srv/my-app/src/b.ts";
      mkEntityRow "e3" (Some "p1") "/srv/MY_APP/src/c.ts";
      mkEntityRow "e4" (Some "p1") "/srv/other/d.ts";
      mkEntityRow "e5" (Some "p2") "/srv/my_app/src/a.ts";
      mkEntityRow "e6" None "/srv/my_app/src/a.ts" ]
    [ mkFileRow (Some "p1") "/srv/my_app/src/a.ts";
      mkFileRow (Some "p1") "/srv/my-app/src/b.ts";
      mkFileRow (Some "p1") "/srv/other/d.ts";
      mkFileRow (Some "p2") "/srv/my_app/src/a.ts" ].

(** C10, the failing input: removing the repository [/srv/my_app] also
    deletes the entity and file rows of the repository [/srv/my-app] of the
    same project, and the rows under [/srv/MY_APP], although their paths do
    not begin with the path of the removed repository: [LIKE] reads the
    [_] of the path as a wildcard and folds the case of letters. The rows
    of the third directory and of the other project are kept, and the
    repository [r2] is still registered. *)
Theorem removeRepository_deletes_beyond_prefix :
  removeRepository two_repositories "r1"
  = (mkStore (delete "r1" (repositories two_repositories))
       [ mkEntityRow "e4" (Some "p1") "/srv/other/d.ts";
         mkEntityRow "e5" (Some "p2") "/srv/my_app/src/a.ts";
         mkEntityRow "e6" None "/srv/my_app/src/a.ts" ]
       [ mkFileRow (Some "p1") "/srv/other/d.ts";
         mkFileRow (Some "p2") "/srv/my_app/src/a.ts" ],
     true) /\
  delete "r1" (repositories two_repositories) !! "r2"
  = Some (mkRepositoryRow "p1" "/srv/my-app" "my-app" 200 None) /\
  String.prefix "/srv/my_app" "/srv/my-app/src/b.ts" = false /\
  String.prefix "/srv/my_app" "/srv/MY_APP/src/c.ts" = false /\
  String.prefix "/srv/my_app" "/srv/my_app/src/a.ts" = true.
Proof.
  split; [|split; [|repeat split]].
  - unfold removeRepository, delete_repository, two_repositories.
    cbn [repositories entities files]. rewrite lookup_insert_eq.
    reflexivity.
  - unfold two_repositories. cbn [repositories].
    rewrite lookup_delete_ne by discriminate.
    rewrite lookup_insert_ne by discriminate. apply lookup_insert_eq.
Qed.

End ProjectManager.

(* ===================================================================== *)
(** ** Conductor: admission control *)
(* ===================================================================== *)

Module Conductor.
Import Js ErrorMiddleware.
Local Open Scope nat_scope.

(** Modelled from the spec: [WorkerState], the per-worker in-flight count,
    configured concurrency limit and cumulative counts. The Conductor
    ([agents/conductor-orchestrator.ts]) is not among the sources. *)
Record WorkerState : Type := mkWorker {
  inFlight : nat;
  limit : nat;
  accepted : nat;
  rejected : nat;
  failed : nat
}.

(** Modelled from the spec: the Conductor's state, the static table from
    operation names to workers and the state of every worker. *)
Record State : Type := mkState {
  capabilities : gmap string string;
  workers : gmap string WorkerState
}.

(** Modelled from the spec: the answer to a submission at admission. The
    busy error carries the worker name and its current load. *)
Inductive Admission : Type :=
| Accepted (worker : string)
| AgentBusy (worker : string) (load : nat)
| UnknownOperation (operationName : string).

Definition accept_worker (ws : WorkerState) : WorkerState :=
  mkWorker (S (inFlight ws)) (limit ws) (S (accepted ws)) (rejected ws) (failed ws).

Definition reject_worker (ws : WorkerState) : WorkerState :=
  mkWorker (inFlight ws) (limit ws) (accepted ws) (S (rejected ws)) (failed ws).

Definition release_worker (ok : bool) (ws : WorkerState) : WorkerState :=
  mkWorker (pred (inFlight ws)) (limit ws) (accepted ws) (rejected ws)
    (if ok then failed ws else S (failed ws)).

(** Modelled from the spec: admission control of [submit]. An operation
    name that maps to no registered worker is unknown; a submission is
    accepted only if the worker's in-flight count is below its limit, and
    is otherwise answered at once with the busy error, without queuing. *)
Definition admission (st : State) (operationName : string) : State * Admission :=
  match capabilities st !! operationName with
  | None => (st, UnknownOperation operationName)
  | Some w =>
      match workers st !! w with
      | None => (st, UnknownOperation operationName)
      | Some ws =>
          if inFlight ws <? limit ws then
            (mkState (capabilities st) (<[w := accept_worker ws]> (workers st)),
             Accepted w)
          else
            (mkState (capabilities st) (<[w := reject_worker ws]> (workers st)),
             AgentBusy w (inFlight ws))
      end
  end.

(** Modelled from the spec: the permit is released on completion, success
    or failure. *)
Definition release (ok : bool) (w : string) (st : State) : State :=
  mkState (capabilities st) (alter (release_worker ok) w (workers st)).

(** Modelled from the spec: the result of [submit]. *)
Inductive SubmitResult (E R : Type) : Type :=
| Result (r : R)
| RejectedError (worker : string) (load : nat)
| UnknownOperationError (operationName : string)
| OperationError (cause : E).
Arguments Result {E R} r.
Arguments RejectedError {E R} worker load.
Arguments UnknownOperationError {E R} operationName.
Arguments OperationError {E R} cause.

(** Modelled from the spec: [submit] with the worker run to completion:
    on admission the worker is invoked and the permit released whatever
    the outcome; a worker exception is caught and wrapped. *)
Definition submit {E R} (st : State) (operationName : string)
    (worker : string -> outcome E R) : State * SubmitResult E R :=
  match admission st operationName with
  | (st1, Accepted w) =>
      match worker w with
      | Returns r => (release true w st1, Result r)
      | Throws e => (release false w st1, OperationError e)
      end
  | (st1, AgentBusy w load) => (st1, RejectedError w load)
  | (st1, UnknownOperation op) => (st1, UnknownOperationError op)
  end.

(** The in-flight count of a worker, zero for an unknown worker. *)
Definition load_of (st : State) (w : string) : nat :=
  match workers st !! w with
  | Some ws => inFlight ws
  | None => 0
  end.

(** Every worker runs within its limit. *)
Definition bounded (st : State) : Prop :=
  forall w ws, workers st !! w = Some ws -> inFlight ws <= limit ws.

Lemma admission_bounded (st : State) (operationName : string) :
  bounded st -> bounded (fst (admission st operationName)).
Proof.
  intros Hb. unfold admission.
  destruct (capabilities st !! operationName) as [w|]; [|exact Hb].
  destruct (workers st !! w) as [ws|] eqn:Hw; [|exact Hb].
  destruct (Nat.ltb_spec (inFlight ws) (limit ws)) as [Hlt|Hge];
    intros w' ws'; cbn; destruct (decide (w = w')) as [<-|Hne].
  - rewrite lookup_insert_eq. intros [= <-]. cbn. lia.
  - rewrite lookup_insert_ne by exact Hne. apply Hb.
  - rewrite lookup_insert_eq. intros [= <-]. cbn. eauto.
  - rewrite lookup_insert_ne by exact Hne. apply Hb.
Qed.

Lemma release_bounded (ok : bool) (w : string) (st : State) :
  bounded st -> bounded (release ok w st).
Proof.
  intros Hb w' ws'. cbn. destruct (decide (w = w')) as [<-|Hne].
  - rewrite lookup_alter_eq. destruct (workers st !! w) as [ws|] eqn:Hw; [|discriminate].
    intros [= <-]. cbn. specialize (Hb w ws Hw). lia.
  - rewrite lookup_alter_ne by exact Hne. apply Hb.
Qed.

(** C1: a submission for a worker whose in-flight count equals its limit
    is rejected with the busy error carrying the worker name and its
    current load; the worker is not invoked, its in-flight count and limit
    are as before, and no other worker is touched. At the HTTP boundary an
    [AgentBusyError] is answered, while the headers are unsent, with
    status 503 and code [AGENT_BUSY]. *)
Theorem backpressure (st : State) (operationName w : string) (ws : WorkerState) :
  capabilities st !! operationName = Some w ->
  workers st !! w = Some ws ->
  inFlight ws = limit ws ->
  (exists st',
     admission st operationName = (st', AgentBusy w (inFlight ws)) /\
     (forall (E R : Type) (worker : string -> outcome E R),
        submit st operationName worker = (st', RejectedError w (inFlight ws))) /\
     load_of st' w = load_of st w /\
     (exists ws', workers st' !! w = Some ws' /\
                  inFlight ws' = inFlight ws /\ limit ws' = limit ws) /\
     (forall w', w' <> w -> workers st' !! w' = workers st !! w')) /\
  (forall env e req res,
     headersSent res = false ->
     exists r, errorHandler env (AgentBusyError e) req res = Written r /\
               status r = 503%Z /\
               error_field "code" r = Some (JStr "AGENT_BUSY") /\
               error_field "details" r = details e).
Proof.
  intros Hcap Hw Hfull. split.
  - assert (Hadm : admission st operationName
                     = (mkState (capabilities st) (<[w := reject_worker ws]> (workers st)),
                        AgentBusy w (inFlight ws))).
    { unfold admission. rewrite Hcap, Hw.
      destruct (Nat.ltb_spec (inFlight ws) (limit ws)); [lia | reflexivity]. }
    eexists. split; [exact Hadm|]. split.
    { intros E R worker. unfold submit. now rewrite Hadm. }
    split.
    { unfold load_of. cbn. now rewrite lookup_insert_eq, Hw. }
    split.
    { exists (reject_worker ws). cbn. now rewrite lookup_insert_eq. }
    intros w' Hne. cbn. apply lookup_insert_ne. congruence.
  - intros env e req res Hs. rewrite errorHandler_agent_busy by exact Hs.
    eexists. split; [reflexivity|]. split; [reflexivity|].
    split; [reflexivity|]. now rewrite format_details.
Qed.

Lemma backpressure_witness :
  exists st',
    admission (mkState {["search" := "semantic"]} {["semantic" := mkWorker 2 2 7 0 0]})
      "search"
    = (st', AgentBusy "semantic" 2) /\
    load_of st' "semantic" = 2.
Proof.
  destruct (proj1 (backpressure
                     (mkState {["search" := "semantic"]}
                        {["semantic" := mkWorker 2 2 7 0 0]})
                     "search" "semantic" (mkWorker 2 2 7 0 0)
                     (lookup_singleton_eq _ _) (lookup_singleton_eq _ _) eq_refl))
    as (st' & Hadm & _ & Hload & _).
  exists st'. split; [exact Hadm|].
  rewrite Hload. unfold load_of. cbn. now rewrite lookup_singleton_eq.
Defined.

End Conductor.

(* ===================================================================== *)
(** ** Hybrid search: reciprocal rank fusion *)
(* ===================================================================== *)

Module Fusion.
Local Open Scope nat_scope.
Local Open Scope list_scope.

(** *** Sorting by a comparison *)

Section Sorting.

Variable A : Type.
Variable cmp : A -> A -> bool.
Hypothesis cmp_total : forall a b, cmp a b = false -> cmp b a = true.
Hypothesis cmp_trans :
  forall a b c, cmp a b = true -> cmp b c = true -> cmp a c = true.

Fixpoint insert_sorted (x : A) (l : list A) : list A :=
  match l with
  | [] => [x]
  | y :: rest => if cmp x y then x :: y :: rest else y :: insert_sorted x rest
  end.

Definition sort_by (l : list A) : list A := fold_right insert_sorted [] l.

Lemma insert_sorted_perm (x : A) (l : list A) :
  Permutation (x :: l) (insert_sorted x l).
Proof.
  induction l as [|y rest IH]; cbn; [reflexivity|].
  destruct (cmp x y); [reflexivity|].
  rewrite perm_swap. now constructor.
Qed.

Lemma sort_by_perm (l : list A) : Permutation l (sort_by l).
Proof.
  induction l as [|x l IH]; cbn; [constructor|].
  rewrite <- insert_sorted_perm. now constructor.
Qed.

Lemma insert_sorted_sorted (x : A) (l : list A) :
  StronglySorted (fun a b => cmp a b = true) l ->
  StronglySorted (fun a b => cmp a b = true) (insert_sorted x l).
Proof.
  induction l as [|y rest IH]; intros Hs; cbn.
  - repeat constructor.
  - apply StronglySorted_inv in Hs as [Hrest Hy].
    destruct (cmp x y) eqn:Hxy.
    + constructor; [now constructor|].
      constructor; [exact Hxy|].
      eapply Forall_impl; [exact Hy|]. intros z Hyz. cbn in Hyz. eauto.
    + constructor; [now apply IH|].
      eapply Permutation_Forall; [apply insert_sorted_perm|].
      constructor; [now apply cmp_total | exact Hy].
Qed.

Lemma sort_by_sorted (l : list A) :
  StronglySorted (fun a b => cmp a b = true) (sort_by l).
Proof.
  induction l as [|x l IH]; cbn; [constructor|].
  now apply insert_sorted_sorted.
Qed.

End Sorting.

Lemma StronglySorted_weaken {A} (R R' : A -> A -> Prop) (l : list A) :
  (forall a b, R a b -> R' a b) -> StronglySorted R l -> StronglySorted R' l.
Proof.
  intros Himp. induction 1 as [|a l _ IH Hall]; constructor; [exact IH|].
  eapply Forall_impl; [exact Hall|]. intros b. apply Himp.
Qed.

(** *** The order of entity ids *)

Lemma ascii_compare_lt_trans (x y z : ascii) :
  Ascii.compare x y = Lt -> Ascii.compare y z = Lt -> Ascii.compare x z = Lt.
Proof.
  unfold Ascii.compare. rewrite !N.compare_lt_iff. lia.
Qed.

Lemma string_compare_lt_trans (a b c : string) :
  String.compare a b = Lt -> String.compare b c = Lt -> String.compare a c = Lt.
Proof.
  revert b c. induction a as [|x a IH]; intros [|y b] [|z c]; cbn;
    try discriminate; try reflexivity.
  destruct (Ascii.compare x y) eqn:Hxy; try discriminate;
    destruct (Ascii.compare y z) eqn:Hyz; try discriminate; intros Hab Hbc.
  - apply Ascii.compare_eq_iff in Hxy, Hyz. subst.
    assert (Hzz : Ascii.compare z z = Eq).
    { unfold Ascii.compare. apply N.compare_refl. }
    rewrite Hzz. eauto.
  - apply Ascii.compare_eq_iff in Hxy. subst. now rewrite Hyz.
  - apply Ascii.compare_eq_iff in Hyz. subst. now rewrite Hxy.
  - now rewrite (ascii_compare_lt_trans x y z).
Qed.

Lemma string_leb_trans (a b c : string) :
  String.leb a b = true -> String.leb b c = true -> String.leb a c = true.
Proof.
  unfold String.leb.
  destruct (String.compare a b) eqn:Hab; try discriminate;
    destruct (String.compare b c) eqn:Hbc; try discriminate; intros _ _.
  - apply String.compare_eq_iff in Hab. subst. now rewrite Hbc.
  - apply String.compare_eq_iff in Hab. subst. now rewrite Hbc.
  - apply String.compare_eq_iff in Hbc. subst. now rewrite Hab.
  - now rewrite (string_compare_lt_trans a b c).
Qed.

Local Open Scope Q_scope.

(** *** The fusion *)

(** Modelled from the spec: a [RankedHit], the entity it refers to and its
    raw score; the source of a hit is the list it comes in. The hybrid
    search engine ([semantic/hybrid-search.ts]) is not among the sources. *)
Record RankedHit : Type := mkHit {
  ref : string;
  rawScore : Q
}.

(** Modelled from the spec: a fused candidate, its combined score and its
    semantic raw score, zero when the semantic list does not have it. *)
Record Fused : Type := mkFused {
  entity : string;
  score : Q;
  semanticRaw : Q
}.

(** Modelled from the spec: the fusion constant and the weights of
    [FusionOptions]. *)
Record FusionOptions : Type := mkOptions {
  k : nat;
  structuralWeight : Q;
  semanticWeight : Q
}.

(** Modelled from the spec: the contribution [1 / (k + r)] of rank [r]. *)
Definition rrf (k r : nat) : Q := 1 / inject_Z (Z.of_nat (k + r)).

(** The score table under construction, in first-seen order. *)
Fixpoint bump (id : string) (delta : Q) (acc : list (string * Q)) : list (string * Q) :=
  match acc with
  | [] => [(id, delta)]
  | (i, s) :: rest =>
      if String.eqb i id then (i, s + delta) :: rest
      else (i, s) :: bump id delta rest
  end.

Fixpoint get (id : string) (acc : list (string * Q)) : Q :=
  match acc with
  | [] => 0
  | (i, s) :: rest => if String.eqb i id then s else get id rest
  end.

(** Modelled from the spec: one pass over a ranked list, adding the
    weighted contribution of every hit to its candidate; [r] is the rank of
    the first hit. *)
Fixpoint add_ranks (w : Q) (k r : nat) (hits : list RankedHit)
    (acc : list (string * Q)) : list (string * Q) :=
  match hits with
  | [] => acc
  | h :: rest => add_ranks w k (S r) rest (bump (ref h) (w * rrf k r) acc)
  end.

Definition combined (opts : FusionOptions) (structural semantic : list RankedHit)
    : list (string * Q) :=
  add_ranks (semanticWeight opts) (k opts) 1 semantic
    (add_ranks (structuralWeight opts) (k opts) 1 structural []).

Fixpoint semantic_raw (id : string) (semantic : list RankedHit) : Q :=
  match semantic with
  | [] => 0
  | h :: rest => if String.eqb (ref h) id then rawScore h else semantic_raw id rest
  end.

(** Modelled from the spec: the order of the result: combined score
    descending, then higher semantic raw score, then entity id. *)
Definition before (a b : Fused) : bool :=
  match score b ?= score a with
  | Lt => true
  | Gt => false
  | Eq =>
      match semanticRaw b ?= semanticRaw a with
      | Lt => true
      | Gt => false
      | Eq => String.leb (entity a) (entity b)
      end
  end.

(** Modelled from the spec: [fuse]. *)
Definition fuse (opts : FusionOptions) (structural semantic : list RankedHit)
    : list Fused :=
  sort_by Fused before
    (map (fun c => mkFused (fst c) (snd c) (semantic_raw (fst c) semantic))
       (combined opts structural semantic)).

(** *** What the specification says *)

(** The rank of an entity in a list whose first hit has rank [r]. *)
Fixpoint rank_from (r : nat) (id : string) (hits : list RankedHit) : option nat :=
  match hits with
  | [] => None
  | h :: rest => if String.eqb (ref h) id then Some r else rank_from (S r) id rest
  end.

(** The 1-based rank. *)
Definition rank_of (id : string) (hits : list RankedHit) : option nat :=
  rank_from 1 id hits.

Definition contribution_from (w : Q) (k r : nat) (id : string) (hits : list RankedHit)
    : Q :=
  match rank_from r id hits with
  | Some n => w * rrf k n
  | None => 0
  end.

(** The sum over the two lists of [weight * 1 / (k + rank)]. *)
Definition rrf_score (opts : FusionOptions) (structural semantic : list RankedHit)
    (id : string) : Q :=
  match rank_of id structural with
  | Some r => structuralWeight opts * (1 / inject_Z (Z.of_nat (k opts + r)))
  | None => 0
  end
  +
  match rank_of id semantic with
  | Some r => semanticWeight opts * (1 / inject_Z (Z.of_nat (k opts + r)))
  | None => 0
  end.

(** [a] is ranked at or before [b]. *)
Definition ranks_before (a b : Fused) : Prop :=
  score b < score a \/
  (score a == score b /\
   (semanticRaw b < semanticRaw a \/
    (semanticRaw a == semanticRaw b /\ String.leb (entity a) (entity b) = true))).

(** *** The order is total and transitive *)

Lemma before_spec (a b : Fused) : before a b = true <-> ranks_before a b.
Proof.
  unfold before, ranks_before.
  destruct (Qcompare_spec (score b) (score a)) as [Hs|Hs|Hs];
    [destruct (Qcompare_spec (semanticRaw b) (semanticRaw a)) as [Hm|Hm|Hm]| |].
  - split.
    + intros Hid. right. split; [lra|]. right. split; [lra | exact Hid].
    + intros [Hlt|[_ [Hlt|[_ Hid]]]]; [lra | lra | exact Hid].
  - split; [|reflexivity]. intros _. right. split; [lra|]. now left.
  - split; [discriminate|]. intros [Hlt|[_ [Hlt|[Heq _]]]]; lra.
  - split; [|reflexivity]. intros _. now left.
  - split; [discriminate|]. intros [Hlt|[Heq _]]; lra.
Qed.

Lemma before_total (a b : Fused) : before a b = false -> before b a = true.
Proof.
  unfold before.
  rewrite <- (Qcompare_antisym (score b) (score a)).
  rewrite <- (Qcompare_antisym (semanticRaw b) (semanticRaw a)).
  destruct (score b ?= score a); cbn; try discriminate; try reflexivity.
  destruct (semanticRaw b ?= semanticRaw a); cbn; try discriminate; try reflexivity.
  intros Hab. destruct (String.leb_total (entity a) (entity b)); congruence.
Qed.

Lemma before_trans (a b c : Fused) :
  before a b = true -> before b c = true -> before a c = true.
Proof.
  rewrite !before_spec. unfold ranks_before.
  intros [Hab|[Hab [Hm|[Hm Hid]]]] [Hbc|[Hbc [Hn|[Hn Hjd]]]];
    first [ left; lra
          | right; split; [lra|];
            first [ left; lra
                  | right; split; [lra|]; eapply string_leb_trans; eassumption ] ].
Qed.

(** *** The score table *)

Lemma get_bump_same (id : string) (delta : Q) (acc : list (string * Q)) :
  get id (bump id delta acc) == get id acc + delta.
Proof.
  induction acc as [|[i s] rest IH]; cbn.
  - rewrite String.eqb_refl. ring.
  - destruct (String.eqb i id) eqn:Hi; cbn; rewrite Hi; [reflexivity | exact IH].
Qed.

Lemma get_bump_other (id other : string) (delta : Q) (acc : list (string * Q)) :
  other <> id -> get other (bump id delta acc) = get other acc.
Proof.
  intros Hne. induction acc as [|[i s] rest IH]; cbn.
  - apply String.eqb_neq in Hne. rewrite String.eqb_sym in Hne. now rewrite Hne.
  - destruct (String.eqb_spec i id) as [->|Hi]; cbn.
    + apply String.eqb_neq in Hne. rewrite String.eqb_sym in Hne. now rewrite Hne.
    + now rewrite IH.
Qed.

Lemma keys_bump (id x : string) (delta : Q) (acc : list (string * Q)) :
  In x (map fst (bump id delta acc)) <-> x = id \/ In x (map fst acc).
Proof.
  induction acc as [|[i s] rest IH]; cbn.
  - intuition.
  - destruct (String.eqb_spec i id) as [->|Hi]; cbn; [intuition|].
    rewrite IH. intuition.
Qed.

Lemma NoDup_bump (id : string) (delta : Q) (acc : list (string * Q)) :
  List.NoDup (map fst acc) -> List.NoDup (map fst (bump id delta acc)).
Proof.
  induction acc as [|[i s] rest IH]; cbn; intros Hnd.
  - constructor; [intros []|constructor].
  - destruct (String.eqb_spec i id) as [->|Hi]; cbn; [exact Hnd|].
    apply List.NoDup_cons_iff in Hnd as [Hnotin Hnd].
    constructor; [|now apply IH].
    rewrite keys_bump. intros [->|Hin]; contradiction.
Qed.

Lemma get_In (id : string) (s : Q) (acc : list (string * Q)) :
  List.NoDup (map fst acc) -> In (id, s) acc -> get id acc = s.
Proof.
  induction acc as [|[i t] rest IH]; cbn; intros Hnd Hin; [contradiction|].
  apply List.NoDup_cons_iff in Hnd as [Hnotin Hnd].
  destruct Hin as [[= -> ->]|Hin].
  - now rewrite String.eqb_refl.
  - destruct (String.eqb_spec i id) as [->|Hi]; [|now apply IH].
    exfalso. apply Hnotin. change id with (fst (id, s)). now apply in_map.
Qed.

Lemma rank_from_absent (r : nat) (id : string) (hits : list RankedHit) :
  ~ In id (map ref hits) -> rank_from r id hits = None.
Proof.
  revert r. induction hits as [|h rest IH]; intros r Hnotin; [reflexivity|].
  cbn in Hnotin |- *. destruct (String.eqb_spec (ref h) id) as [Heq|Hne].
  - exfalso. apply Hnotin. now left.
  - apply IH. intros Hin. apply Hnotin. now right.
Qed.

(** One pass adds to every candidate its weighted contribution. *)
Lemma add_ranks_get (w : Q) (k : nat) (id : string) (hits : list RankedHit) :
  List.NoDup (map ref hits) ->
  forall r acc,
    get id (add_ranks w k r hits acc) == get id acc + contribution_from w k r id hits.
Proof.
  unfold contribution_from.
  induction hits as [|h rest IH]; intros Hnd r acc; cbn.
  - ring.
  - apply List.NoDup_cons_iff in Hnd as [Hnotin Hnd].
    rewrite (IH Hnd). destruct (String.eqb_spec (ref h) id) as [Heq|Hne].
    + rewrite Heq in *. rewrite (rank_from_absent _ _ _ Hnotin).
      rewrite get_bump_same. ring.
    + rewrite get_bump_other by congruence. reflexivity.
Qed.

Lemma add_ranks_keys (w : Q) (k : nat) (x : string) (hits : list RankedHit) :
  forall r acc,
    In x (map fst (add_ranks w k r hits acc))
    <-> In x (map fst acc) \/ In x (map ref hits).
Proof.
  induction hits as [|h rest IH]; intros r acc; cbn.
  - intuition.
  - rewrite IH, keys_bump. intuition.
Qed.

Lemma add_ranks_NoDup (w : Q) (k : nat) (hits : list RankedHit) :
  forall r acc,
    List.NoDup (map fst acc) -> List.NoDup (map fst (add_ranks w k r hits acc)).
Proof.
  induction hits as [|h rest IH]; intros r acc Hnd; cbn; [exact Hnd|].
  apply IH. now apply NoDup_bump.
Qed.

Lemma combined_score (opts : FusionOptions) (structural semantic : list RankedHit)
    (id : string) :
  List.NoDup (map ref structural) -> List.NoDup (map ref semantic) ->
  get id (combined opts structural semantic)
  == rrf_score opts structural semantic id.
Proof.
  intros Hs Hm. unfold combined, rrf_score, rank_of.
  rewrite (add_ranks_get _ _ _ _ Hm), (add_ranks_get _ _ _ _ Hs).
  unfold contribution_from, rrf. cbn [get]. ring.
Qed.

Lemma combined_NoDup (opts : FusionOptions) (structural semantic : list RankedHit) :
  List.NoDup (map fst (combined opts structural semantic)).
Proof.
  unfold combined. apply add_ranks_NoDup, add_ranks_NoDup. constructor.
Qed.

Lemma fuse_perm (opts : FusionOptions) (structural semantic : list RankedHit) :
  Permutation
    (map (fun c => mkFused (fst c) (snd c) (semantic_raw (fst c) semantic))
       (combined opts structural semantic))
    (fuse opts structural semantic).
Proof. apply sort_by_perm. Qed.

Lemma fuse_entities (opts : FusionOptions) (structural semantic : list RankedHit) :
  Permutation (map fst (combined opts structural semantic))
    (map entity (fuse opts structural semantic)).
Proof.
  rewrite <- (fuse_perm opts structural semantic), map_map. cbn.
  reflexivity.
Qed.

(** *** The scenario of the specification *)

(** The candidates of structural hits [A, B, C] and semantic hits
    [B, A, D] with [k = 60] and both weights [w], before sorting. *)
Lemma scenario_candidates (w ra rb rc sa sb sd : Q) :
  fuse (mkOptions 60 w w)
    [mkHit "A" ra; mkHit "B" rb; mkHit "C" rc]
    [mkHit "B" sb; mkHit "A" sa; mkHit "D" sd]
  = sort_by Fused before
      [ mkFused "A" (w * rrf 60 1 + w * rrf 60 2) sa;
        mkFused "B" (w * rrf 60 2 + w * rrf 60 1) sb;
        mkFused "C" (w * rrf 60 3) 0;
        mkFused "D" (w * rrf 60 3) sd ].
Proof. reflexivity. Qed.

Lemma rrf_60 : rrf 60 1 == 1 # 61 /\ rrf 60 2 == 1 # 62 /\ rrf 60 3 == 1 # 63.
Proof. repeat split. Qed.

Lemma scenario_scores (w ra rb rc sa sb sd : Q) :
  let S := [mkHit "A" ra; mkHit "B" rb; mkHit "C" rc] in
  let M := [mkHit "B" sb; mkHit "A" sa; mkHit "D" sd] in
  let o := mkOptions 60 w w in
  rrf_score o S M "A" == w * (1 # 61) + w * (1 # 62) /\
  rrf_score o S M "B" == w * (1 # 62) + w * (1 # 61) /\
  rrf_score o S M "C" == w * (1 # 63) + 0 /\
  rrf_score o S M "D" == 0 + w * (1 # 63).
Proof. repeat split; reflexivity. Qed.

(** Two candidates that rank before two others come first after sorting,
    in the order the comparison gives them. *)
Lemma first_two (a b c d : Fused) :
  before a c = true -> before a d = true ->
  before b c = true -> before b d = true ->
  exists rest,
    map entity (sort_by Fused before [a; b; c; d])
    = (if before a b then entity a :: entity b :: rest
       else entity b :: entity a :: rest).
Proof.
  intros Hac Had Hbc Hbd.
  cbn [sort_by fold_right insert_sorted].
  destruct (before c d); cbn [insert_sorted]; rewrite ?Hbc, ?Hbd;
    cbn [insert_sorted]; destruct (before a b);
    cbn [insert_sorted]; rewrite ?Hac, ?Had; cbn [insert_sorted map];
    eexists; reflexivity.
Qed.

(** With equal scores the semantic raw score decides, then the id. *)
Lemma tie_break (a b : Fused) :
  score a == score b ->
  before a b
  = match semanticRaw b ?= semanticRaw a with
    | Lt => true
    | Gt => false
    | Eq => String.leb (entity a) (entity b)
    end.
Proof.
  intros Heq. unfold before.
  now rewrite (proj1 (Qeq_alt (score b) (score a)) (Qeq_sym _ _ Heq)).
Qed.

Lemma higher_score_first (a b : Fused) : score b < score a -> before a b = true.
Proof. intros Hlt. apply before_spec. now left. Qed.

(** *** Fusion *)

(** C2: for candidate lists without repeated entities, [fuse] gives every
    candidate the sum over the two lists of [weight * 1 / (k + r)], [r]
    its 1-based rank in the list, returns each candidate of either list
    once, ordered by combined score descending, then by higher semantic raw
    score, then by entity id. With structural hits [A, B, C], semantic hits
    [B, A, D], [k = 60] and equal positive weights, [A] and [B] have the
    same score, above those of [C] and [D], and come first: [B] before [A]
    when its semantic raw score is higher, [A] before [B] otherwise. *)
Theorem fuse_ranks (opts : FusionOptions) (structural semantic : list RankedHit) :
  List.NoDup (map ref structural) -> List.NoDup (map ref semantic) ->
  (forall f, In f (fuse opts structural semantic) ->
     score f == rrf_score opts structural semantic (entity f) /\
     semanticRaw f = semantic_raw (entity f) semantic) /\
  (forall id, In id (map entity (fuse opts structural semantic))
              <-> In id (map ref structural) \/ In id (map ref semantic)) /\
  List.NoDup (map entity (fuse opts structural semantic)) /\
  StronglySorted ranks_before (fuse opts structural semantic) /\
  (forall w ra rb rc sa sb sd : Q,
     0 < w ->
     let S := [mkHit "A" ra; mkHit "B" rb; mkHit "C" rc] in
     let M := [mkHit "B" sb; mkHit "A" sa; mkHit "D" sd] in
     let o := mkOptions 60 w w in
     rrf_score o S M "A" == rrf_score o S M "B" /\
     rrf_score o S M "C" < rrf_score o S M "A" /\
     rrf_score o S M "D" < rrf_score o S M "A" /\
     (sa < sb -> exists rest, map entity (fuse o S M) = "B" :: "A" :: rest) /\
     (sb <= sa -> exists rest, map entity (fuse o S M) = "A" :: "B" :: rest)).
Proof.
  intros Hs Hm. split; [|split; [|split; [|split]]].
  - intros f Hin.
    apply (Permutation_in _ (Permutation_sym (fuse_perm opts structural semantic)))
      in Hin.
    apply in_map_iff in Hin as ([id s] & <- & Hin). cbn. split; [|reflexivity].
    rewrite <- (get_In id s _ (combined_NoDup opts structural semantic) Hin).
    now apply combined_score.
  - intros id. split.
    + intros Hin.
      apply (Permutation_in _ (Permutation_sym (fuse_entities opts structural semantic)))
        in Hin.
      unfold combined in Hin. rewrite !add_ranks_keys in Hin. cbn in Hin. tauto.
    + intros Hin.
      apply (Permutation_in _ (fuse_entities opts structural semantic)).
      unfold combined. rewrite !add_ranks_keys. tauto.
  - eapply Permutation_NoDup; [apply fuse_entities | apply combined_NoDup].
  - apply (StronglySorted_weaken (fun a b => before a b = true) ranks_before).
    + intros a b Hab. now apply before_spec.
    + apply sort_by_sorted; [apply before_total | apply before_trans].
  - intros w ra rb rc sa sb sd Hw S M o.
    destruct (scenario_scores w ra rb rc sa sb sd) as (HA & HB & HC & HD).
    fold S M o in HA, HB, HC, HD.
    split; [rewrite HA, HB; ring|].
    split; [rewrite HA, HC; lra|].
    split; [rewrite HA, HD; lra|].
    unfold o, S, M. rewrite scenario_candidates.
    destruct rrf_60 as (H1 & H2 & H3).
    destruct (first_two
                (mkFused "A" (w * rrf 60 1 + w * rrf 60 2) sa)
                (mkFused "B" (w * rrf 60 2 + w * rrf 60 1) sb)
                (mkFused "C" (w * rrf 60 3) 0)
                (mkFused "D" (w * rrf 60 3) sd)) as [rest Hrest];
      try (apply higher_score_first; cbn [score]; rewrite H1, H2, H3; lra).
    rewrite Hrest, tie_break by (cbn [score]; ring).
    cbn [semanticRaw entity].
    split; intros Hcmp.
    + apply (proj1 (Qgt_alt sb sa)) in Hcmp. rewrite Hcmp. eauto.
    + apply (proj1 (Qle_alt sb sa)) in Hcmp.
      destruct (sb ?= sa); [eauto | eauto | congruence].
Qed.

Lemma fuse_ranks_witness :
  map entity
    (fuse (mkOptions 60 1 1)
       [mkHit "A" (9 # 10); mkHit "B" (8 # 10); mkHit "C" (7 # 10)]
       [mkHit "B" (9 # 10); mkHit "A" (8 # 10); mkHit "D" (7 # 10)])
  = ["B"; "A"; "D"; "C"] /\
  forall id,
    In id (map entity
             (fuse (mkOptions 60 1 1)
                [mkHit "A" (9 # 10); mkHit "B" (8 # 10); mkHit "C" (7 # 10)]
                [mkHit "B" (9 # 10); mkHit "A" (8 # 10); mkHit "D" (7 # 10)]))
    <-> In id ["A"; "B"; "C"] \/ In id ["B"; "A"; "D"].
Proof.
  split; [vm_compute; reflexivity|].
  apply (fuse_ranks (mkOptions 60 1 1)
           [mkHit "A" (9 # 10); mkHit "B" (8 # 10); mkHit "C" (7 # 10)]
           [mkHit "B" (9 # 10); mkHit "A" (8 # 10); mkHit "D" (7 # 10)]).
  - cbn. repeat constructor; cbn; intuition discriminate.
  - cbn. repeat constructor; cbn; intuition discriminate.
Defined.

End Fusion.

(* ===================================================================== *)
(** ** Text: splitting on a separator *)
(* ===================================================================== *)

Module Text.

(** [s.split(sep)] for a one-character separator: the pieces between the
    separators, in order; never an empty array. *)
Fixpoint split (sep : ascii) (s : string) : list string :=
  match s with
  | EmptyString => [EmptyString]
  | String c rest =>
      if Ascii.eqb c sep then EmptyString :: split sep rest
      else
        match split sep rest with
        | [] => [String c EmptyString]
        | part :: parts => String c part :: parts
        end
  end.

(** [s.includes(c)] for a character. *)
Fixpoint has_char (c : ascii) (s : string) : bool :=
  match s with
  | EmptyString => false
  | String d rest => Ascii.eqb d c || has_char c rest
  end.

(** [parts[parts.length - 1]], [undefined] on an empty array. *)
Fixpoint last_of (parts : list string) : option string :=
  match parts with
  | [] => None
  | [p] => Some p
  | _ :: rest => last_of rest
  end.

(** [parts.includes(x)] *)
Definition includes (x : string) (parts : list string) : bool :=
  existsb (String.eqb x) parts.

Lemma split_not_nil (sep : ascii) (s : string) : split sep s <> [].
Proof.
  destruct s as [|c rest]; cbn; [discriminate|].
  destruct (Ascii.eqb c sep); [discriminate|].
  destruct (split sep rest); discriminate.
Qed.

Lemma concat_cons (sep p : string) (ps : list string) :
  ps <> [] ->
  String.concat sep (p :: ps)
  = String.append p (String.append sep (String.concat sep ps)).
Proof. destruct ps; [contradiction | reflexivity]. Qed.

Lemma concat_push (sep : string) (c : ascii) (p : string) (ps : list string) :
  String.concat sep (String c p :: ps) = String c (String.concat sep (p :: ps)).
Proof. destruct ps; reflexivity. Qed.

(** Joining the pieces with the separator gives the text back. *)
Lemma split_join (sep : ascii) (s : string) :
  String.concat (String sep EmptyString) (split sep s) = s.
Proof.
  induction s as [|c rest IH]; [reflexivity|].
  pose proof (split_not_nil sep rest) as Hnil.
  cbn [split]. destruct (Ascii.eqb_spec c sep) as [->|Hne].
  - rewrite concat_cons by exact Hnil. cbn. now rewrite IH.
  - destruct (split sep rest) as [|p ps] eqn:Hs; [contradiction|].
    rewrite concat_push. now rewrite IH.
Qed.

(** No piece holds the separator. *)
Lemma split_parts_clean (sep : ascii) (s p : string) :
  In p (split sep s) -> has_char sep p = false.
Proof.
  revert p. induction s as [|c rest IH]; intros p; cbn [split].
  - intros [<-|[]]. reflexivity.
  - destruct (Ascii.eqb_spec c sep) as [->|Hne].
    + intros [<-|Hin]; [reflexivity | now apply IH].
    + pose proof (split_not_nil sep rest) as Hnil.
      destruct (split sep rest) as [|q qs] eqn:Hs; [contradiction|].
      intros [<-|Hin].
      * cbn. apply Ascii.eqb_neq in Hne. rewrite Hne. cbn.
        apply IH. now left.
      * apply IH. now right.
Qed.

(** The last piece is what follows the last separator. *)
Lemma split_last (sep : ascii) (s : string) :
  exists dir seg,
    last_of (split sep s) = Some seg /\
    s = String.append dir seg /\
    has_char sep seg = false /\
    (dir = EmptyString \/
     exists d, dir = String.append d (String sep EmptyString)).
Proof.
  induction s as [|c rest IH].
  - exists EmptyString, EmptyString. cbn. auto.
  - destruct IH as (dir & seg & Hlast & Hs & Hclean & Hdir).
    pose proof (split_not_nil sep rest) as Hnil.
    cbn [split]. destruct (Ascii.eqb_spec c sep) as [->|Hne].
    + exists (String sep dir), seg.
      destruct (split sep rest) as [|q qs] eqn:Hsp; [contradiction|].
      split; [exact Hlast|]. split; [now rewrite Hs|].
      split; [exact Hclean|]. right.
      destruct Hdir as [->|[d ->]].
      * exists EmptyString. reflexivity.
      * exists (String sep d). reflexivity.
    + destruct (split sep rest) as [|q qs] eqn:Hsp; [contradiction|].
      destruct qs as [|q' qs'].
      * cbn in Hlast. injection Hlast as ->.
        exists EmptyString, (String c seg).
        assert (Hrest : rest = seg).
        { pose proof (split_join sep rest) as Hj. rewrite Hsp in Hj. cbn in Hj.
          now symmetry. }
        split; [reflexivity|]. split; [now rewrite Hrest|].
        split; [|now left].
        cbn. apply Ascii.eqb_neq in Hne. now rewrite Hne.
      * exists (String c dir), seg.
        split; [exact Hlast|]. split; [now rewrite Hs|].
        split; [exact Hclean|]. right.
        destruct Hdir as [->|[d ->]].
        -- exfalso. change (rest = seg) in Hs. subst rest.
           pose proof (split_parts_clean sep seg) as Hc.
           assert (Hone : split sep seg = [seg]).
           { clear -Hclean. induction seg as [|x seg IH]; [reflexivity|].
             cbn in Hclean. apply orb_false_iff in Hclean as [Hx Hseg].
             cbn. rewrite Hx, (IH Hseg). reflexivity. }
           rewrite Hone in Hsp. discriminate.
        -- exists (String c d). reflexivity.
Qed.

End Text.

(* ===================================================================== *)
(** ** Project manager: projects and repositories *)
(* ===================================================================== *)

Module ProjectStore.
Import Js ProjectManager.

(** *** Repositories of a project *)

(** A row of [project_repositories] with all its columns, keyed by [id],
    the primary key. The [metadata] column is read as in [projects]. *)
Record RepositoryRecord : Type := mkRecord {
  rec_project_id : string;
  rec_repository_path : string;
  rec_repository_name : string;
  rec_added_at : Z;
  rec_last_indexed : option Z;
  rec_metadata : option json
}.

(** A [ProjectRepository] object; a [None] field is [null] or
    [undefined]. *)
Record ProjectRepository : Type := mkRepository {
  r_id : string;
  r_project_id : string;
  r_repository_path : string;
  r_repository_name : string;
  r_added_at : Z;
  r_last_indexed : option Z;
  r_metadata : option json
}.

(** [AddRepositoryInput] *)
Record AddRepositoryInput : Type := mkAddInput {
  add_repository_path : string;
  add_repository_name : option string;
  add_metadata : option json
}.

Definition projectExists (db : gmap string ProjectRow) (projectId : string) : bool :=
  match getProject db projectId with
  | Some _ => true
  | None => false
  end.

(** [path.split("/")], then the last part or ["unnamed-repo"]. *)
Definition getRepositoryNameFromPath (path : string) : string :=
  or_else_str (Text.last_of (Text.split "/" path)) "unnamed-repo".

(** [x || null] on a number. *)
Definition num_or_null (n : option Z) : option Z :=
  match n with
  | Some z => if z =? 0 then None else Some z
  | None => None
  end.

(** [addRepository] with the id [nanoid()] gives and the time [Date.now()]
    gives. The [INSERT] fails when the id is taken. *)
Definition addRepository (db : gmap string ProjectRow)
    (repos : gmap string RepositoryRecord) (now : Z) (fresh projectId : string)
    (input : AddRepositoryInput)
    : outcome string (gmap string RepositoryRecord * ProjectRepository) :=
  match getProject db projectId with
  | None => Throws (String.append "Project not found: " projectId)
  | Some _ =>
      let repository :=
        {| r_id := fresh;
           r_project_id := projectId;
           r_repository_path := add_repository_path input;
           r_repository_name :=
             or_else_str (add_repository_name input)
               (getRepositoryNameFromPath (add_repository_path input));
           r_added_at := now;
           r_last_indexed := None;
           r_metadata := add_metadata input |} in
      match repos !! fresh with
      | Some _ => Throws "UNIQUE constraint failed: project_repositories.id"
      | None =>
          Returns
            (<[fresh := mkRecord (r_project_id repository)
                          (r_repository_path repository)
                          (r_repository_name repository)
                          (r_added_at repository)
                          (num_or_null (r_last_indexed repository))
                          (stringify_or_null (r_metadata repository))]> repos,
             repository)
      end
  end.

Definition repository_of (kv : string * RepositoryRecord) : ProjectRepository :=
  {| r_id := fst kv;
     r_project_id := rec_project_id (snd kv);
     r_repository_path := rec_repository_path (snd kv);
     r_repository_name := rec_repository_name (snd kv);
     r_added_at := rec_added_at (snd kv);
     r_last_indexed := rec_last_indexed (snd kv);
     r_metadata := rec_metadata (snd kv) |}.

(** [ORDER BY added_at ASC] *)
Definition added_le (a b : ProjectRepository) : bool := r_added_at a <=? r_added_at b.

(** [listRepositories]: the rows of the project, by [added_at]. SQL leaves
    the order of rows added at the same time open; here it is the one the
    sort gives. *)
Definition listRepositories (repos : gmap string RepositoryRecord) (projectId : string)
    : list ProjectRepository :=
  Fusion.sort_by ProjectRepository added_le
    (map repository_of
       (List.filter (fun kv => String.eqb (rec_project_id (snd kv)) projectId)
          (map_to_list repos))).

(** [getRepositoryByPath]: the first row of the project with this path. *)
Definition getRepositoryByPath (repos : gmap string RepositoryRecord)
    (projectId repositoryPath : string) : option ProjectRepository :=
  match
    List.find
      (fun kv => String.eqb (rec_project_id (snd kv)) projectId
                 && String.eqb (rec_repository_path (snd kv)) repositoryPath)
      (map_to_list repos)
  with
  | Some kv => Some (repository_of kv)
  | None => None
  end.

(** [UPDATE project_repositories SET last_indexed = ? WHERE id = ?] *)
Definition set_last_indexed (t : Z) (row : RepositoryRecord) : RepositoryRecord :=
  mkRecord (rec_project_id row) (rec_repository_path row) (rec_repository_name row)
    (rec_added_at row) (Some t) (rec_metadata row).

(** [updateRepositoryIndexTime]; the timestamp defaults to [Date.now()]. *)
Definition updateRepositoryIndexTime (repos : gmap string RepositoryRecord) (now : Z)
    (repositoryId : string) (timestamp : option Z) : gmap string RepositoryRecord :=
  alter (set_last_indexed (match timestamp with Some t => t | None => now end))
    repositoryId repos.

(** *** Paths as [LIKE] sees them *)

(** [p] is the beginning of [s] up to the case of ASCII letters. *)
Fixpoint prefix_nocase (p s : string) : bool :=
  match p with
  | EmptyString => true
  | String c p' =>
      match s with
      | EmptyString => false
      | String d s' => Ascii.eqb (fold_case c) (fold_case d) && prefix_nocase p' s'
      end
  end.

(** A path without the wildcards of [LIKE]. *)
Definition plain (p : string) : bool :=
  negb (Text.has_char "%" p) && negb (Text.has_char "_" p).

Lemma prefix_prefix_nocase (p s : string) :
  String.prefix p s = true -> prefix_nocase p s = true.
Proof.
  revert s. induction p as [|c p IH]; intros s Hp; [reflexivity|].
  destruct s as [|d s]; [discriminate|]. cbn in Hp |- *.
  destruct (ascii_dec c d) as [<-|]; [|discriminate].
  now rewrite Ascii.eqb_refl, IH.
Qed.

Lemma like_prefix_nocase (p s : string) :
  prefix_nocase p s = true -> like (String.append p "%") s = true.
Proof.
  revert s. induction p as [|c p IH]; intros s Hpre.
  - apply like_percent.
  - destruct s as [|d s]; [discriminate|].
    cbn in Hpre. apply andb_true_iff in Hpre as [Hcd Hpre].
    specialize (IH s Hpre).
    change (String.append (String c p) "%") with (String c (String.append p "%")).
    destruct (Ascii.eqb_spec c "%") as [->|Hc].
    + apply like_skip; [exact (fold_case_no_lead "%" d eq_refl Hcd)|].
      now apply like_percent_here.
    + cbn [like]. destruct (Ascii.eqb_spec c "%"); [contradiction|].
      destruct (Ascii.eqb_spec c "_") as [->|_].
      * unfold after_char. now rewrite (fold_case_no_lead "_" d eq_refl Hcd).
      * now rewrite IH, Hcd.
Qed.

Lemma like_plain (p s : string) :
  plain p = true -> like (String.append p "%") s = prefix_nocase p s.
Proof.
  unfold plain. revert s. induction p as [|c p IH]; intros s Hplain.
  - apply like_percent.
  - cbn in Hplain. apply andb_true_iff in Hplain as [Hpc Hus].
    apply negb_true_iff, orb_false_iff in Hpc as [Hc1 Hp1].
    apply negb_true_iff, orb_false_iff in Hus as [Hc2 Hp2].
    change (String.append (String c p) "%") with (String c (String.append p "%")).
    cbn [like prefix_nocase]. rewrite Hc1.
    destruct s as [|d s]; [reflexivity|]. rewrite Hc2.
    rewrite IH; [reflexivity|]. now rewrite Hp1, Hp2.
Qed.

(** *** Helpers *)

Lemma or_else_str_nonempty_gen (a : option string) (b : string) :
  b <> "" -> or_else_str a b <> "".
Proof.
  intros Hb. unfold or_else_str. destruct a as [x|]; [|exact Hb].
  destruct (String.eqb_spec x ""); [exact Hb | assumption].
Qed.

Lemma getRepositoryNameFromPath_nonempty (path : string) :
  getRepositoryNameFromPath path <> "".
Proof. apply or_else_str_nonempty_gen. discriminate. Qed.

(** *** Projects: create, read, update, delete *)

Lemma or_null_twice (s : option string) : or_null (or_null s) = or_null s.
Proof. apply or_null_id, or_null_normal. Qed.

Lemma stringify_or_null_twice (m : option json) :
  stringify_or_null (stringify_or_null m) = stringify_or_null m.
Proof.
  apply stringify_or_null_id. intros j. apply stringify_or_null_truthy.
Qed.

(** X1: with an unused id, [createProject] returns the project as given while
    [getProject] reads it back with an empty description and a falsy
    metadata turned into [null]; the two agree when neither occurs. No
    other project changes, and [deleteProject] of the new id gives the
    table back. *)
Theorem createProject_read_back (db : gmap string ProjectRow) (now : Z)
    (fresh : string) (input : CreateProjectInput) :
  db !! fresh = None ->
  snd (createProject db now fresh input)
  = mkProject fresh (new_name input) (new_description input) now now
      (new_metadata input) /\
  getProject (fst (createProject db now fresh input)) fresh
  = Some (mkProject fresh (new_name input) (or_null (new_description input)) now now
            (stringify_or_null (new_metadata input))) /\
  (new_description input <> Some "" ->
   (forall j, new_metadata input = Some j -> truthy j = true) ->
   getProject (fst (createProject db now fresh input)) fresh
   = Some (snd (createProject db now fresh input))) /\
  (forall other, other <> fresh ->
     getProject (fst (createProject db now fresh input)) other = getProject db other) /\
  deleteProject (fst (createProject db now fresh input)) fresh = (db, true).
Proof.
  intros Hfresh. unfold createProject, getProject, deleteProject. cbn.
  rewrite lookup_insert_eq. cbn.
  split; [reflexivity|]. split; [reflexivity|]. split; [|split].
  - intros Hd Hm. now rewrite (or_null_id _ Hd), (stringify_or_null_id _ Hm).
  - intros other Hne. rewrite lookup_insert_ne by congruence. reflexivity.
  - now rewrite delete_insert_id.
Qed.

Lemma createProject_read_back_witness :
  getProject
    (fst (createProject ∅ 100 "p1" (mkCreateInput "demo" (Some "") None))) "p1"
  = Some (mkProject "p1" "demo" None 100 100 None) /\
  snd (createProject ∅ 100 "p1" (mkCreateInput "demo" (Some "") None))
  = mkProject "p1" "demo" (Some "") 100 100 None.
Proof.
  destruct (createProject_read_back ∅ 100 "p1" (mkCreateInput "demo" (Some "") None)
              (lookup_empty _)) as (Hret & Hget & _).
  split; [exact Hget | exact Hret].
Defined.

(** X2: [deleteProject] answers whether the project existed; afterwards it
    does not exist, the other projects are as before, and a second call
    finds nothing to delete. *)
Theorem deleteProject_effect (db : gmap string ProjectRow) (pid : string) :
  snd (deleteProject db pid) = projectExists db pid /\
  projectExists (fst (deleteProject db pid)) pid = false /\
  (forall other, other <> pid ->
     getProject (fst (deleteProject db pid)) other = getProject db other) /\
  (projectExists db pid = false -> fst (deleteProject db pid) = db) /\
  deleteProject (fst (deleteProject db pid)) pid = (fst (deleteProject db pid), false).
Proof.
  unfold deleteProject, projectExists, getProject.
  destruct (db !! pid) as [row|] eqn:Hrow; cbn.
  - rewrite lookup_delete_eq. repeat split; try discriminate.
    intros other Hne. rewrite lookup_delete_ne by congruence. reflexivity.
  - rewrite Hrow. repeat split.
Qed.

(** What [updateProject] makes of a stored row and an input. *)
Definition merged (pid : string) (now : Z) (input : UpdateProjectInput)
    (row : ProjectRow) : Project :=
  mkProject pid
    (match in_name input with Some n => n | None => row_name row end)
    (match in_description input with Some d => Some d | None => row_description row end)
    (row_created_at row) now
    (match in_metadata input with Some m => Some m | None => row_metadata row end).

Lemma updateProject_existing (db : gmap string ProjectRow) (now : Z) (pid : string)
    (input : UpdateProjectInput) (row : ProjectRow) :
  db !! pid = Some row ->
  updateProject db now pid input
  = (alter (update_row (name (merged pid now input row))
              (or_null (description (merged pid now input row)))
              (stringify_or_null (metadata (merged pid now input row))) now)
       pid db,
     Some (merged pid now input row)).
Proof.
  intros Hrow. unfold updateProject, getProject. now rewrite Hrow.
Qed.

(** X3: after [updateProject] on an existing project, [getProject] reads back
    what was returned, with an empty description and a falsy metadata
    turned into [null]; a second update with the same input at the same
    time leaves the table as the first did. *)
Theorem updateProject_read_back (db : gmap string ProjectRow) (now : Z) (pid : string)
    (input : UpdateProjectInput) (row : ProjectRow) :
  db !! pid = Some row ->
  exists updated,
    snd (updateProject db now pid input) = Some updated /\
    getProject (fst (updateProject db now pid input)) pid
    = Some (mkProject pid (name updated) (or_null (description updated))
              (row_created_at row) now (stringify_or_null (metadata updated))) /\
    fst (updateProject (fst (updateProject db now pid input)) now pid input)
    = fst (updateProject db now pid input).
Proof.
  intros Hrow. rewrite (updateProject_existing db now pid input row Hrow).
  cbn [fst snd]. eexists. split; [reflexivity|].
  set (f := update_row _ _ _ _).
  assert (Hrow' : alter f pid db !! pid = Some (f row))
    by now rewrite lookup_alter_eq, Hrow.
  split.
  - unfold getProject. now rewrite Hrow'.
  - rewrite (updateProject_existing _ now pid input (f row) Hrow'). cbn [fst].
    apply map_eq. intros i. destruct (decide (pid = i)) as [<-|Hne].
    + rewrite !lookup_alter_eq, Hrow. cbn. unfold f, update_row, merged. cbn.
      destruct (in_name input), (in_description input), (in_metadata input);
        now rewrite ?or_null_twice, ?stringify_or_null_twice.
    + now rewrite !lookup_alter_ne by exact Hne.
Qed.

Lemma updateProject_read_back_witness :
  getProject
    (fst (updateProject {["p1" := mkProjectRow "demo" (Some "first") 100 100 None]}
            200 "p1" (mkUpdateInput None (Some "") None))) "p1"
  = Some (mkProject "p1" "demo" None 100 200 None).
Proof.
  destruct (updateProject_read_back
              {["p1" := mkProjectRow "demo" (Some "first") 100 100 None]}
              200 "p1" (mkUpdateInput None (Some "") None)
              (mkProjectRow "demo" (Some "first") 100 100 None)
              (lookup_singleton_eq _ _)) as (updated & Hret & Hget & _).
  rewrite Hget. unfold updateProject, getProject in Hret.
  rewrite lookup_singleton_eq in Hret. cbn in Hret. injection Hret as <-.
  reflexivity.
Defined.

(** *** Repository names *)

(** X4: the name taken from a path is never empty and holds no slash: it is
    what follows the last slash of the path, and ["unnamed-repo"] when
    nothing follows it. *)
Theorem getRepositoryNameFromPath_last_part (path : string) :
  getRepositoryNameFromPath path <> "" /\
  Text.has_char "/" (getRepositoryNameFromPath path) = false /\
  exists dir seg,
    path = String.append dir seg /\
    Text.has_char "/" seg = false /\
    (dir = "" \/ exists d, dir = String.append d "/") /\
    getRepositoryNameFromPath path = (if String.eqb seg "" then "unnamed-repo" else seg).
Proof.
  destruct (Text.split_last "/" path) as (dir & seg & Hlast & Hpath & Hclean & Hdir).
  unfold getRepositoryNameFromPath. rewrite Hlast. cbn [or_else_str].
  split; [|split].
  - destruct (String.eqb_spec seg ""); [discriminate | assumption].
  - destruct (String.eqb_spec seg ""); [reflexivity | assumption].
  - exists dir, seg. auto.
Qed.

(** *** Adding, listing and finding repositories *)

Lemma added_le_total (a b : ProjectRepository) :
  added_le a b = false -> added_le b a = true.
Proof. unfold added_le. rewrite Z.leb_gt, Z.leb_le. lia. Qed.

Lemma added_le_trans (a b c : ProjectRepository) :
  added_le a b = true -> added_le b c = true -> added_le a c = true.
Proof. unfold added_le. rewrite !Z.leb_le. lia. Qed.

Lemma in_listRepositories (repos : gmap string RepositoryRecord) (pid : string)
    (r : ProjectRepository) :
  In r (listRepositories repos pid)
  <-> exists row, repos !! r_id r = Some row /\ rec_project_id row = pid /\
                  r = repository_of (r_id r, row).
Proof.
  unfold listRepositories.
  split.
  - intros Hin.
    apply (Permutation_in _ (Permutation_sym (Fusion.sort_by_perm _ _ _))) in Hin.
    apply in_map_iff in Hin as ([i row] & <- & Hin).
    apply filter_In in Hin as [Hin Hpid]. cbn in Hpid.
    apply list_elem_of_In, elem_of_map_to_list in Hin.
    exists row. cbn. split; [exact Hin|]. split; [|reflexivity].
    now apply String.eqb_eq.
  - intros (row & Hrow & Hpid & Hr).
    apply (Permutation_in _ (Fusion.sort_by_perm _ _ _)).
    apply in_map_iff. exists (r_id r, row). split; [now symmetry|].
    apply filter_In. split.
    + now apply list_elem_of_In, elem_of_map_to_list.
    + cbn. now apply String.eqb_eq.
Qed.

(** X6: [listRepositories] gives exactly the rows of the project, each once,
    oldest first. *)
Theorem listRepositories_sorted (repos : gmap string RepositoryRecord) (pid : string) :
  (forall r, In r (listRepositories repos pid)
             <-> exists row, repos !! r_id r = Some row /\ rec_project_id row = pid /\
                             r = repository_of (r_id r, row)) /\
  List.NoDup (map r_id (listRepositories repos pid)) /\
  StronglySorted (fun a b => r_added_at a <= r_added_at b) (listRepositories repos pid).
Proof.
  split; [apply in_listRepositories|]. split.
  - unfold listRepositories.
    eapply Permutation_NoDup;
      [apply Permutation_map, Fusion.sort_by_perm|].
    rewrite map_map. cbn.
    pose proof (NoDup_fst_map_to_list repos) as Hnd.
    revert Hnd. generalize (map_to_list repos). intros l.
    induction l as [|[i row] l IH]; cbn; intros Hnd; [constructor|].
    apply NoDup_cons in Hnd as [Hnotin Hnd].
    destruct (String.eqb (rec_project_id row) pid); cbn; [|now apply IH].
    constructor; [|now apply IH].
    intros Hin. apply Hnotin.
    apply in_map_iff in Hin as (kv & Hfst & Hin).
    apply filter_In in Hin as [Hin _].
    apply list_elem_of_fmap. exists kv.
    split; [now symmetry | now apply list_elem_of_In].
  - apply (Fusion.StronglySorted_weaken (fun a b => added_le a b = true)).
    + intros a b. unfold added_le. now rewrite Z.leb_le.
    + apply Fusion.sort_by_sorted; [apply added_le_total | apply added_le_trans].
Qed.

(** X5: [addRepository] fails for a missing project, writing nothing. For an
    existing project and an unused id the repository is listed afterwards,
    under the given name, or under the name taken from the path when none
    or an empty one is given; the name is never empty, [last_indexed] is
    unset, and the other rows are as before. *)
Theorem addRepository_effect (db : gmap string ProjectRow)
    (repos : gmap string RepositoryRecord) (now : Z) (fresh pid : string)
    (input : AddRepositoryInput) :
  (projectExists db pid = false ->
   addRepository db repos now fresh pid input
   = Throws (String.append "Project not found: " pid)) /\
  (projectExists db pid = true -> repos !! fresh = None ->
   exists repos' r,
     addRepository db repos now fresh pid input = Returns (repos', r) /\
     r_id r = fresh /\ r_project_id r = pid /\
     r_repository_path r = add_repository_path input /\
     r_last_indexed r = None /\
     (forall n, add_repository_name input = Some n -> n <> "" ->
                r_repository_name r = n) /\
     (add_repository_name input = None \/ add_repository_name input = Some "" ->
      r_repository_name r = getRepositoryNameFromPath (add_repository_path input)) /\
     r_repository_name r <> "" /\
     In (mkRepository fresh pid (r_repository_path r) (r_repository_name r) now None
           (stringify_or_null (add_metadata input)))
        (listRepositories repos' pid) /\
     (forall other, other <> fresh -> repos' !! other = repos !! other)).
Proof.
  unfold projectExists, addRepository.
  destruct (getProject db pid) as [p|]; split; try discriminate; try reflexivity.
  intros _ Hfresh. rewrite Hfresh. eexists _, _. split; [reflexivity|]. cbn.
  do 4 (split; [reflexivity|]).
  split; [|split; [|split; [|split]]].
  - intros n -> Hn. cbn. now destruct (String.eqb_spec n "").
  - intros [->| ->]; reflexivity.
  - apply or_else_str_nonempty_gen.
    apply getRepositoryNameFromPath_nonempty.
  - apply in_listRepositories. cbn. eexists. rewrite lookup_insert_eq.
    split; [reflexivity|]. split; reflexivity.
  - intros other Hne. apply lookup_insert_ne. congruence.
Qed.

(** X7: [getRepositoryByPath] answers a row of the project with exactly this
    path, and [null] exactly when the project has none. *)
Theorem getRepositoryByPath_found (repos : gmap string RepositoryRecord)
    (pid path : string) :
  (forall r, getRepositoryByPath repos pid path = Some r ->
     r_project_id r = pid /\ r_repository_path r = path /\
     exists row, repos !! r_id r = Some row /\ r = repository_of (r_id r, row)) /\
  (getRepositoryByPath repos pid path = None
   <-> forall i row, repos !! i = Some row ->
                     ~ (rec_project_id row = pid /\ rec_repository_path row = path)).
Proof.
  unfold getRepositoryByPath. split.
  - intros r. destruct (List.find _ _) as [[i row]|] eqn:Hfind; [|discriminate].
    intros [= <-]. apply find_some in Hfind as [Hin Hmatch]. cbn in Hmatch.
    apply andb_true_iff in Hmatch as [Hp Hq].
    apply String.eqb_eq in Hp, Hq. cbn.
    split; [exact Hp|]. split; [exact Hq|].
    exists row. split; [|reflexivity].
    now apply elem_of_map_to_list, list_elem_of_In.
  - destruct (List.find _ _) as [[i row]|] eqn:Hfind.
    + split; [discriminate|]. intros Hnone. exfalso.
      apply find_some in Hfind as [Hin Hmatch]. cbn in Hmatch.
      apply andb_true_iff in Hmatch as [Hp Hq]. apply String.eqb_eq in Hp, Hq.
      apply list_elem_of_In, elem_of_map_to_list in Hin.
      exact (Hnone i row Hin (conj Hp Hq)).
    + split; [|reflexivity]. intros _ i row Hrow [Hp Hq].
      pose proof (find_none _ _ Hfind (i, row)) as Hno.
      cbn in Hno. rewrite Hp, Hq, !String.eqb_refl in Hno.
      assert (Hin : In (i, row) (map_to_list repos))
        by now apply list_elem_of_In, elem_of_map_to_list.
      specialize (Hno Hin). discriminate.
Qed.

(** X8: [updateRepositoryIndexTime] on an unknown id changes nothing; on a
    known id it sets [last_indexed], to the call time when no timestamp is
    given, and leaves every other column and row. *)
Theorem updateRepositoryIndexTime_effect (repos : gmap string RepositoryRecord)
    (now : Z) (rid : string) (timestamp : option Z) :
  (repos !! rid = None -> updateRepositoryIndexTime repos now rid timestamp = repos) /\
  (forall row, repos !! rid = Some row ->
     updateRepositoryIndexTime repos now rid timestamp !! rid
     = Some (mkRecord (rec_project_id row) (rec_repository_path row)
               (rec_repository_name row) (rec_added_at row)
               (Some (match timestamp with Some t => t | None => now end))
               (rec_metadata row))) /\
  (forall other, other <> rid ->
     updateRepositoryIndexTime repos now rid timestamp !! other = repos !! other).
Proof.
  unfold updateRepositoryIndexTime. split; [|split].
  - intros Hnone. apply map_eq. intros i. destruct (decide (rid = i)) as [<-|Hne].
    + now rewrite lookup_alter_eq, Hnone.
    + now rewrite lookup_alter_ne.
  - intros row Hrow. now rewrite lookup_alter_eq, Hrow.
  - intros other Hne. apply lookup_alter_ne. congruence.
Qed.

(** *** Removing a repository, again *)

(** X9: a second [removeRepository] of the same id finds nothing: it returns
    [false] and leaves the store as the first call left it. *)
Theorem removeRepository_twice (st : Store) (rid : string) :
  removeRepository (fst (removeRepository st rid)) rid
  = (fst (removeRepository st rid), false).
Proof.
  unfold removeRepository at 2 3, delete_repository.
  destruct (repositories st !! rid) as [repo|] eqn:Hrepo; cbn.
  - unfold removeRepository. cbn. now rewrite lookup_delete_eq.
  - unfold removeRepository. now rewrite Hrepo.
Qed.

(** X10: the cleanup of [removeRepository] reaches every row of the project
    whose path begins with the repository path up to the case of ASCII
    letters; when the repository path holds neither [%] nor [_], these are
    exactly the rows it deletes. *)
Theorem removeRepository_cleanup (st : Store) (rid : string) (repo : RepositoryRow) :
  repositories st !! rid = Some repo ->
  (forall e, In e (entities st) ->
     entity_project_id e = Some (repo_project_id repo) ->
     prefix_nocase (repository_path repo) (file_path e) = true ->
     ~ In e (entities (fst (removeRepository st rid)))) /\
  (forall f, In f (files st) ->
     file_project_id f = Some (repo_project_id repo) ->
     prefix_nocase (repository_path repo) (path f) = true ->
     ~ In f (files (fst (removeRepository st rid)))) /\
  (plain (repository_path repo) = true ->
   (forall e, In e (entities (fst (removeRepository st rid)))
      <-> In e (entities st) /\
          ~ (entity_project_id e = Some (repo_project_id repo) /\
             prefix_nocase (repository_path repo) (file_path e) = true)) /\
   (forall f, In f (files (fst (removeRepository st rid)))
      <-> In f (files st) /\
          ~ (file_project_id f = Some (repo_project_id repo) /\
             prefix_nocase (repository_path repo) (path f) = true))).
Proof.
  intros Hrepo. unfold removeRepository, delete_repository. rewrite Hrepo. cbn.
  split; [|split; [|intros Hplain; split]].
  - intros e _ Hpid Hpre Hin. apply filter_In in Hin as [_ Hkeep].
    unfold entity_hit in Hkeep.
    now rewrite Hpid, project_is_Some, (like_prefix_nocase _ _ Hpre) in Hkeep.
  - intros f _ Hpid Hpre Hin. apply filter_In in Hin as [_ Hkeep].
    unfold file_hit in Hkeep.
    now rewrite Hpid, project_is_Some, (like_prefix_nocase _ _ Hpre) in Hkeep.
  - intros e. rewrite filter_In. unfold entity_hit.
    rewrite (like_plain _ _ Hplain). split.
    + intros [Hin Hkeep]. split; [exact Hin|]. intros [Hpid Hpre].
      now rewrite Hpid, project_is_Some, Hpre in Hkeep.
    + intros [Hin Hnot]. split; [exact Hin|].
      apply negb_true_iff, andb_false_iff.
      destruct (prefix_nocase (repository_path repo) (file_path e)); [|now right].
      left. apply project_is_not. intros Hpid. now apply Hnot.
  - intros f. rewrite filter_In. unfold file_hit.
    rewrite (like_plain _ _ Hplain). split.
    + intros [Hin Hkeep]. split; [exact Hin|]. intros [Hpid Hpre].
      now rewrite Hpid, project_is_Some, Hpre in Hkeep.
    + intros [Hin Hnot]. split; [exact Hin|].
      apply negb_true_iff, andb_false_iff.
      destruct (prefix_nocase (repository_path repo) (path f)); [|now right].
      left. apply project_is_not. intros Hpid. now apply Hnot.
Qed.

Lemma removeRepository_cleanup_witness :
  ~ In (mkEntityRow "e1" (Some "p1") "/srv/app2/a.ts")
      (entities
         (fst (removeRepository
                 (mkStore {["r1" := mkRepositoryRow "p1" "/srv/App" "app" 100 None]}
                    [mkEntityRow "e1" (Some "p1") "/srv/app2/a.ts"] [])
                 "r1"))).
Proof.
  apply (proj1 (removeRepository_cleanup
                  (mkStore {["r1" := mkRepositoryRow "p1" "/srv/App" "app" 100 None]}
                     [mkEntityRow "e1" (Some "p1") "/srv/app2/a.ts"] [])
                  "r1" (mkRepositoryRow "p1" "/srv/App" "app" 100 None)
                  (lookup_singleton_eq _ _)));
    [now left | reflexivity | reflexivity].
Defined.

End ProjectStore.

(* ===================================================================== *)
(** ** Error responses: request ids and hidden messages *)
(* ===================================================================== *)

Module ErrorResponses.
Import Js ErrorMiddleware.



(** The middleware [createApp] mounts with [app.use], in its order, before
    the 404 handler and [errorHandler]. [Routes] stands for everything
    mounted behind [requestLogger]: the documentation, the health and root
    endpoints and the routers under [/api]. *)
Inductive Middleware : Type :=
| ExpressJson
| ExpressUrlencoded
| CorsMiddleware
| RequestLogger
| Routes.

#[local] Instance Middleware_eq_dec : EqDecision Middleware.
Proof. solve_decision. Defined.










End ErrorResponses.

(* ===================================================================== *)
(** ** Validation of query and path parameters *)
(* ===================================================================== *)

Module Validators.
Import Js ErrorMiddleware Validation.

(** A request with its three validated parts. *)
Record FullRequest : Type := mkFull {
  base : Request;
  query : json;
  params : json
}.

(** The call a middleware makes to [next], on a full request. *)
Inductive NextFull : Type :=
| FullOk (req : FullRequest)
| FullError (err : Thrown).

(** [validateQuery]. The assignment [req.query = ...] stands inside the
    [try]: [req.query] is a plain property up to Express 4 and a getter
    without a setter from Express 5 on, where assigning to it throws a
    [TypeError] that the [catch] passes to [next]. [read_only] is that
    exception, when the property cannot be written. *)
Definition validateQuery (read_only : option Thrown) (schema : ZodSchema)
    (req : FullRequest) : NextFull :=
  match schema (query req) with
  | Parsed v =>
      match read_only with
      | None => FullOk (mkFull (base req) v (params req))
      | Some e => FullError e
      end
  | ZodFailure issues =>
      FullError (HttpError 400 "Query validation failed" (Some "VALIDATION_ERROR")
                   (Some (JObj [("errors", JArr issues)])))
  | OtherFailure e => FullError e
  end.

Definition validateParams (schema : ZodSchema) (req : FullRequest) : NextFull :=
  match schema (params req) with
  | Parsed v => FullOk (mkFull (base req) (query req) v)
  | ZodFailure issues =>
      FullError (HttpError 400 "Params validation failed" (Some "VALIDATION_ERROR")
                   (Some (JObj [("errors", JArr issues)])))
  | OtherFailure e => FullError e
  end.

(** [validateBody] on a full request. *)
Definition validateBodyFull (schema : ZodSchema) (req : FullRequest) : NextFull :=
  match validateBody schema (base req) with
  | NextOk b => FullOk (mkFull b (query req) (params req))
  | NextError e => FullError e
  end.

(** What [errorHandler] makes of what a validator passed to [next], if an
    error. *)
Definition rejection (env : Env) (n : NextFull) (req : FullRequest) (res : Res)
    : option Handled :=
  match n with
  | FullOk _ => None
  | FullError e => Some (errorHandler env e (base req) res)
  end.

(** Each validator replaces the part it validates by the parsed value and
    leaves the other two parts of the request as they are; where
    [req.query] cannot be written, an accepted query ends in the exception
    of the assignment. *)
Theorem validators_replace_own_part (schema : ZodSchema) (req : FullRequest) (v : json) :
  (schema (query req) = Parsed v ->
   validateQuery None schema req = FullOk (mkFull (base req) v (params req)) /\
   forall e, validateQuery (Some e) schema req = FullError e) /\
  (schema (params req) = Parsed v ->
   validateParams schema req = FullOk (mkFull (base req) (query req) v)) /\
  (schema (body (base req)) = Parsed v ->
   exists req', validateBodyFull schema req = FullOk req' /\
                body (base req') = v /\ query req' = query req /\
                params req' = params req /\
                method (base req') = method (base req) /\
                path (base req') = path (base req) /\
                x_request_id (base req') = x_request_id (base req)).
Proof.
  unfold validateQuery, validateParams, validateBodyFull, validateBody.
  split; [|split]; intros Hp; rewrite Hp; [split; reflexivity | reflexivity |].
  eexists. split; [reflexivity|]. repeat split.
Qed.

(** X13: a query or path parameter the schema rejects is answered, in every
    environment and while the headers are unsent, with status 400, code
    [VALIDATION_ERROR], the issues under [details.errors], and a message
    that names the part: the message of a validator is never hidden. *)
Theorem validators_reject (env : Env) (read_only : option Thrown) (schema : ZodSchema)
    (req : FullRequest) (res : Res) (issues : list json) :
  headersSent res = false ->
  (schema (query req) = ZodFailure issues ->
   exists r, rejection env (validateQuery read_only schema req) req res
             = Some (Written r) /\
     status r = 400 /\
     error_field "message" r = Some (JStr "Query validation failed") /\
     error_field "code" r = Some (JStr "VALIDATION_ERROR") /\
     obj_path ["error"; "details"; "errors"] (payload r) = Some (JArr issues)) /\
  (schema (params req) = ZodFailure issues ->
   exists r, rejection env (validateParams schema req) req res = Some (Written r) /\
     status r = 400 /\
     error_field "message" r = Some (JStr "Params validation failed") /\
     error_field "code" r = Some (JStr "VALIDATION_ERROR") /\
     obj_path ["error"; "details"; "errors"] (payload r) = Some (JArr issues)) /\
  (schema (body (base req)) = ZodFailure issues ->
   exists r, rejection env (validateBodyFull schema req) req res = Some (Written r) /\
     status r = 400 /\
     error_field "message" r = Some (JStr "Validation failed")).
Proof.
  intros Hs.
  unfold validateQuery, validateParams, validateBodyFull, validateBody, rejection.
  split; [|split]; intros Hz; rewrite Hz; rewrite errorHandler_http by exact Hs;
    eexists; (split; [reflexivity|]); repeat (split; [reflexivity|]); reflexivity.
Qed.

Lemma validators_reject_witness :
  exists r,
    rejection (Some "production")
      (validateQuery None object_schema
         (mkFull (mkRequest "GET" "/api/graph/health" None JNull) (JStr "x") JNull))
      (mkFull (mkRequest "GET" "/api/graph/health" None JNull) (JStr "x") JNull)
      (mkRes false None)
    = Some (Written r) /\
    error_field "message" r = Some (JStr "Query validation failed").
Proof.
  destruct (proj1 (validators_reject (Some "production") None object_schema
                     (mkFull (mkRequest "GET" "/api/graph/health" None JNull)
                        (JStr "x") JNull)
                     (mkRes false None)
                     [JObj [("message", JStr "Expected object")]] eq_refl) eq_refl)
    as (r & Hr & _ & Hm & _).
  exists r. split; [exact Hr | exact Hm].
Defined.

(** X14: the route handler runs exactly when the schema accepts the body, and
    then on the parsed body. An error of the schema that is not a
    [ZodError] goes to the error handler as it is. *)
Theorem handler_runs_iff_parsed (env : Env) (schema : ZodSchema) (handler : Handler)
    (req req' : Request) (res : Res) :
  (handler_input (run_route env schema handler req res) = Some req'
   <-> exists v, schema (body req) = Parsed v /\ req' = with_body v req) /\
  (forall e, schema (body req) = OtherFailure e ->
     run_route env schema handler req res = mkRun None (errorHandler env e req res)).
Proof.
  unfold run_route, validateBody. split.
  - destruct (schema (body req)) as [v|issues|e]; cbn.
    + destruct (handler (with_body v req)); cbn; split.
      * intros [= <-]. eauto.
      * intros (v' & [= <-] & ->). reflexivity.
      * intros [= <-]. eauto.
      * intros (v' & [= <-] & ->). reflexivity.
    + split; [discriminate|]. intros (v & Hv & _). discriminate.
    + split; [discriminate|]. intros (v & Hv & _). discriminate.
  - intros e He. now rewrite He.
Qed.

End Validators.

(* ===================================================================== *)
(** ** Cross-origin requests *)
(* ===================================================================== *)

Module Cors.
Import Js.

(** [process.env.CORS_ORIGINS?.split(",") || ["*"]] *)
Definition allowedOrigins (CORS_ORIGINS : option string) : list string :=
  match CORS_ORIGINS with
  | Some s => Text.split "," s
  | None => ["*"]
  end.

(** The [origin] function of [getCorsOptions]: [Returns true] is
    [callback(null, true)], [Throws] is [callback(new Error(...))]. *)
Definition origin (NODE_ENV CORS_ORIGINS : option string) (o : option string)
    : outcome string bool :=
  match o with
  | None => Returns true
  | Some org =>
      if String.eqb org "" then Returns true
      else if match NODE_ENV with
              | Some e => String.eqb e "development"
              | None => false
              end
              || Text.includes "*" (allowedOrigins CORS_ORIGINS)
      then Returns true
      else if Text.includes org (allowedOrigins CORS_ORIGINS) then Returns true
      else Throws "Not allowed by CORS"
  end.

Lemma includes_In (x : string) (l : list string) :
  Text.includes x l = true <-> In x l.
Proof.
  unfold Text.includes. rewrite existsb_exists. split.
  - intros (y & Hin & Heq). apply String.eqb_eq in Heq. now subst.
  - intros Hin. exists x. split; [exact Hin | apply String.eqb_refl].
Qed.

Lemma append_assoc (a b c : string) :
  String.append (String.append a b) c = String.append a (String.append b c).
Proof.
  induction a as [|x a IH]; [reflexivity|].
  change (String x (String.append (String.append a b) c)
          = String x (String.append a (String.append b c))).
  now f_equal.
Qed.

Lemma append_empty_r (a : string) : String.append a "" = a.
Proof.
  induction a as [|x a IH]; [reflexivity|].
  change (String x (String.append a "") = String x a). now f_equal.
Qed.

(** A part of a joined list stands in the text between separators. *)
Lemma concat_In_between (sep p : string) (parts : list string) :
  In p parts ->
  exists pre post,
    String.concat sep parts = String.append pre (String.append p post) /\
    (pre = "" \/ exists a, pre = String.append a sep) /\
    (post = "" \/ exists b, post = String.append sep b).
Proof.
  induction parts as [|x ps IH]; [intros []|].
  intros [<-|Hin].
  - destruct ps as [|y ps].
    + exists "", "". cbn. rewrite append_empty_r. auto.
    + exists "", (String.append sep (String.concat sep (y :: ps))).
      split; [reflexivity|]. split; [now left|]. right. eauto.
  - destruct (IH Hin) as (pre & post & Hcat & Hpre & Hpost).
    assert (Hne : ps <> []) by (destruct ps; [destruct Hin | discriminate]).
    exists (String.append x (String.append sep pre)), post.
    rewrite Text.concat_cons by exact Hne. rewrite Hcat.
    split; [now rewrite !append_assoc|]. split; [|exact Hpost].
    right. destruct Hpre as [->|[a ->]].
    + exists x. now rewrite append_empty_r.
    + exists (String.append x (String.append sep a)). now rewrite !append_assoc.
Qed.

(** X15: the decision on an origin. A request without origin, or with an empty
    one, is allowed, and so is every origin in development, with
    [CORS_ORIGINS] unset, or with [*] among its entries. Otherwise an
    origin is allowed exactly when it is one of the comma-separated
    entries of [CORS_ORIGINS], which then holds it verbatim between commas;
    with [CORS_ORIGINS] set to the empty text no origin is. *)
Theorem origin_decision (NODE_ENV CORS_ORIGINS : option string) (o : string) :
  origin NODE_ENV CORS_ORIGINS None = Returns true /\
  origin NODE_ENV CORS_ORIGINS (Some "") = Returns true /\
  origin (Some "development") CORS_ORIGINS (Some o) = Returns true /\
  origin NODE_ENV None (Some o) = Returns true /\
  (In "*" (allowedOrigins CORS_ORIGINS) ->
   origin NODE_ENV CORS_ORIGINS (Some o) = Returns true) /\
  (o <> "" -> NODE_ENV <> Some "development" ->
   ~ In "*" (allowedOrigins CORS_ORIGINS) ->
   (origin NODE_ENV CORS_ORIGINS (Some o) = Returns true
    <-> In o (allowedOrigins CORS_ORIGINS)) /\
   (origin NODE_ENV CORS_ORIGINS (Some o) <> Returns true ->
    origin NODE_ENV CORS_ORIGINS (Some o) = Throws "Not allowed by CORS") /\
   (forall s, CORS_ORIGINS = Some s ->
      origin NODE_ENV CORS_ORIGINS (Some o) = Returns true ->
      Text.has_char "," o = false /\
      exists pre post,
        s = String.append pre (String.append o post) /\
        (pre = "" \/ exists a, pre = String.append a ",") /\
        (post = "" \/ exists b, post = String.append "," b)) /\
   (CORS_ORIGINS = Some "" ->
    origin NODE_ENV CORS_ORIGINS (Some o) = Throws "Not allowed by CORS")).
Proof.
  split; [reflexivity|]. split; [reflexivity|].
  split; [unfold origin; now destruct (String.eqb o "")|].
  split.
  { unfold origin. destruct (String.eqb o ""); [reflexivity|].
    cbn. now rewrite orb_true_r. }
  split.
  { intros Hstar. apply includes_In in Hstar. unfold origin.
    destruct (String.eqb o ""); [reflexivity|]. now rewrite Hstar, orb_true_r. }
  intros Ho Hdev Hstar.
  assert (Hrun : origin NODE_ENV CORS_ORIGINS (Some o)
                 = if Text.includes o (allowedOrigins CORS_ORIGINS)
                   then Returns true else Throws "Not allowed by CORS").
  { unfold origin. apply String.eqb_neq in Ho. rewrite Ho.
    assert (Hs : Text.includes "*" (allowedOrigins CORS_ORIGINS) = false).
    { destruct (Text.includes "*" _) eqn:Hi; [|reflexivity].
      apply includes_In in Hi. contradiction. }
    rewrite Hs, orb_false_r.
    destruct NODE_ENV as [e|]; [|reflexivity].
    destruct (String.eqb_spec e "development") as [->|_]; [contradiction|reflexivity]. }
  rewrite Hrun.
  destruct (Text.includes o (allowedOrigins CORS_ORIGINS)) eqn:Hinc.
  - apply includes_In in Hinc. split; [tauto|]. split; [congruence|]. split.
    + intros s -> _. cbn in Hinc. split.
      * now apply (Text.split_parts_clean "," s).
      * destruct (concat_In_between "," o (Text.split "," s) Hinc)
          as (pre & post & Hcat & Hpre & Hpost).
        rewrite Text.split_join in Hcat. exists pre, post. auto.
    + intros ->. cbn in Hinc. destruct Hinc as [<-|[]]. contradiction.
  - assert (Hnot : ~ In o (allowedOrigins CORS_ORIGINS)).
    { intros Hin. apply includes_In in Hin. congruence. }
    split; [split; [discriminate | contradiction]|].
    split; [reflexivity|]. split; [discriminate | reflexivity].
Qed.

Lemma origin_decision_witness :
  origin (Some "production") (Some "https://a.example,https://b.example")
    (Some "https://b.example") = Returns true /\
  origin (Some "production") (Some "https://a.example, https://b.example")
    (Some "https://b.example") = Throws "Not allowed by CORS".
Proof.
  split.
  - destruct (origin_decision (Some "production")
                (Some "https://a.example,https://b.example") "https://b.example")
      as (_ & _ & _ & _ & _ & Hlist).
    destruct Hlist as (Hiff & _);
      [discriminate | discriminate | cbn; intuition discriminate |].
    apply Hiff. cbn. tauto.
  - destruct (origin_decision (Some "production")
                (Some "https://a.example, https://b.example") "https://b.example")
      as (_ & _ & _ & _ & _ & Hlist).
    destruct Hlist as (_ & Hthrow & _);
      [discriminate | discriminate | cbn; intuition discriminate |].
    apply Hthrow. intros H. cbv in H. discriminate.
Defined.

End Cors.

(* ===================================================================== *)
(** ** Voyage provider: number of requests and the dimension *)
(* ===================================================================== *)

Module VoyageBatches.
Import Js Voyage.
Local Open Scope nat_scope.
Local Open Scope list_scope.

(** *** The dimension of the embeddings *)

(** What [info.dimension] can hold after the constructor: a number, or a
    property that the table of dimensions inherits from [Object.prototype]
    (a function or an object) when the model is named like one. *)
Inductive Dimension : Type :=
| Number (n : nat)
| Inherited.

(** The own properties of the [dimensions] table of
    [getModelDimension]. *)
Definition own_dimension (model : string) : option nat :=
  if String.eqb model "voyage-3" then Some 1024
  else if String.eqb model "voyage-3-lite" then Some 512
  else if String.eqb model "voyage-code-3" then Some 1024
  else if String.eqb model "voyage-finance-2" then Some 1024
  else if String.eqb model "voyage-law-2" then Some 1024
  else if String.eqb model "voyage-multilingual-2" then Some 1024
  else if String.eqb model "voyage-2" then Some 1024
  else if String.eqb model "voyage-large-2" then Some 1536
  else if String.eqb model "voyage-code-2" then Some 1536
  else None.

(** What the parsers do to [info.dimension] when they have parsed a
    response: [parseSingle] with the length of the vector, [parseBatch]
    with the lengths of the vectors. *)
Inductive ParseEvent : Type :=
| SingleParsed (len : nat)
| BatchParsed (lens : list nat).

Section Dimension.

(** Whether a name is a property inherited from [Object.prototype]. *)
Variable inherited : string -> bool.

(** [dimensions[model] ?? 1024] *)
Definition getModelDimension (model : string) : Dimension :=
  match own_dimension model with
  | Some n => Number n
  | None => if inherited model then Inherited else Number 1024
  end.

(** ToBoolean of [info.dimension]. *)
Definition dimension_truthy (d : option Dimension) : bool :=
  match d with
  | None => false
  | Some (Number 0) => false
  | Some _ => true
  end.

(** [this.info.dimension = this.info.dimension ?? arr.length] and
    [if (!this.info.dimension && out[0]) this.info.dimension = out[0].length] *)
Definition after_parse (d : option Dimension) (ev : ParseEvent) : option Dimension :=
  match ev with
  | SingleParsed len =>
      match d with
      | Some x => Some x
      | None => Some (Number len)
      end
  | BatchParsed lens =>
      match lens with
      | first :: _ => if negb (dimension_truthy d) then Some (Number first) else d
      | [] => d
      end
  end.

(** [getDimension()] of a provider built for [model] after the parsers
    have seen the events. *)
Definition getDimension (model : string) (events : list ParseEvent) : option Dimension :=
  fold_left after_parse events (Some (getModelDimension model)).

Lemma own_dimension_values (model : string) (n : nat) :
  own_dimension model = Some n -> n = 512 \/ n = 1024 \/ n = 1536.
Proof.
  unfold own_dimension.
  repeat match goal with
         | |- context [String.eqb ?a ?b] => destruct (String.eqb a b)
         end; intros [= <-]; auto.
Qed.

Lemma getModelDimension_truthy (model : string) :
  dimension_truthy (Some (getModelDimension model)) = true.
Proof.
  unfold getModelDimension. destruct (own_dimension model) as [n|] eqn:Hown.
  - destruct (own_dimension_values model n Hown) as [->|[->| ->]]; reflexivity.
  - destruct (inherited model); reflexivity.
Qed.

(** X16: the dimension is fixed by the model name when the provider is built:
    no response changes it, whatever the length of the vectors received.
    For a model name that is not an inherited property it is 512, 1024 or
    1536, and 1024 for a name that is not in the table. *)
Theorem getDimension_fixed (model : string) (events : list ParseEvent) :
  getDimension model events = Some (getModelDimension model) /\
  (inherited model = false ->
   exists n, getModelDimension model = Number n /\
             (n = 512 \/ n = 1024 \/ n = 1536) /\
             (own_dimension model = None -> n = 1024)).
Proof.
  split.
  - unfold getDimension. induction events as [|ev events IH]; [reflexivity|].
    cbn [fold_left]. replace (after_parse _ ev) with (Some (getModelDimension model));
      [exact IH|].
    destruct ev as [len|[|first lens]]; cbn [after_parse]; try reflexivity.
    now rewrite getModelDimension_truthy.
  - intros Hinh. unfold getModelDimension.
    destruct (own_dimension model) as [n|] eqn:Hown.
    + exists n. split; [reflexivity|]. split; [|discriminate].
      exact (own_dimension_values model n Hown).
    + rewrite Hinh. exists 1024. auto.
Qed.

End Dimension.

(** *** The number of chunks *)

Lemma ceil_step (size r : nat) :
  0 < size -> 0 < r -> (r + size - 1) / size = S ((r - size + size - 1) / size).
Proof.
  intros Hsize Hr. destruct (le_lt_dec r size) as [Hle|Hgt].
  - replace (r - size) with 0 by lia. cbn [Nat.add].
    rewrite (Nat.div_small (size - 1) size) by lia.
    symmetry. apply (Nat.div_unique (r + size - 1) size 1 (r - 1)); lia.
  - replace (r + size - 1) with ((r - size + size - 1) + 1 * size) by lia.
    rewrite Nat.div_add by lia. lia.
Qed.

(** The loop makes as many chunks as the texts left need, all of them full
    but possibly the last. *)
Lemma chunk_loop_count (size : nat) (texts : list string) :
  0 < size ->
  forall fuel i chunks,
    length texts - i <= fuel ->
    exists cs,
      chunk_loop fuel (Z.of_nat size) (Z.of_nat i) texts chunks = Some (chunks ++ cs) /\
      length cs = (length texts - i + size - 1) / size /\
      (forall j c, cs !! j = Some c -> S j < length cs -> length c = size).
Proof.
  intros Hsize fuel. induction fuel as [|fuel IH]; intros i chunks Hfuel.
  - exists []. cbn [chunk_loop].
    destruct (Z.ltb_spec (Z.of_nat i) (Z.of_nat (length texts))); [lia|].
    rewrite app_nil_r. split; [reflexivity|]. split.
    + replace (length texts - i) with 0 by lia. cbn [Nat.add length].
      symmetry. apply Nat.div_small. lia.
    + intros j c Hc. discriminate.
  - cbn [chunk_loop].
    destruct (Z.ltb_spec (Z.of_nat i) (Z.of_nat (length texts))) as [Hlt|Hge].
    + destruct (IH (i + size)
                  (chunks ++ [slice (Z.of_nat i) (Z.of_nat i + Z.of_nat size) texts]))
        as (cs & Hloop & Hlen & Hfull); [lia|].
      exists (slice (Z.of_nat i) (Z.of_nat i + Z.of_nat size) texts :: cs).
      rewrite Nat2Z.inj_add in Hloop. rewrite Hloop, <- app_assoc.
      split; [reflexivity|]. split.
      * cbn [length]. rewrite Hlen, (ceil_step size (length texts - i)) by lia.
        do 3 f_equal. lia.
      * intros [|j] c Hc Hj; cbn in Hc, Hj.
        -- injection Hc as <-. rewrite slice_length, !Nat2Z.id by lia.
           assert (Hmore : length texts - (i + size) + size - 1 >= size).
           { destruct (le_lt_dec size (length texts - (i + size) + size - 1));
               [lia|].
             rewrite Nat.div_small in Hlen by lia. lia. }
           lia.
        -- apply (Hfull j c Hc). lia.
    + exists []. rewrite app_nil_r. split; [reflexivity|]. split.
      * replace (length texts - i) with 0 by lia. cbn [Nat.add length].
        symmetry. apply Nat.div_small. lia.
      * intros j c Hc. discriminate.
Qed.

(** X17: with a positive batch size the loop ends and cuts [n] texts into
    [ceil(n / size)] chunks, one request each; every chunk before the last
    has exactly [size] texts. *)
Theorem chunk_count (fuel size : nat) (texts : list string) :
  0 < size -> length texts <= fuel ->
  exists chunks,
    chunk_loop fuel (Z.of_nat size) 0 texts [] = Some chunks /\
    length chunks = (length texts + size - 1) / size /\
    (forall j c, chunks !! j = Some c -> S j < length chunks -> length c = size) /\
    length (concat chunks) = length texts.
Proof.
  intros Hsize Hfuel.
  destruct (chunk_loop_count size texts Hsize fuel 0 []) as (cs & Hloop & Hlen & Hfull);
    [lia|].
  destruct (chunk_loop_spec (Z.of_nat size) texts ltac:(lia) fuel 0%Z [])
    as (cs' & Hloop' & Hcat & _); [lia | lia |].
  change (Z.of_nat 0) with 0%Z in Hloop.
  rewrite Hloop in Hloop'. injection Hloop' as <-.
  exists cs. cbn in Hloop. split; [exact Hloop|]. split.
  - rewrite Hlen. do 2 f_equal. lia.
  - split; [exact Hfull|]. now rewrite Hcat.
Qed.

Lemma chunk_count_witness :
  exists chunks,
    chunk_loop 5 2 0 ["a"; "b"; "c"; "d"; "e"] [] = Some chunks /\
    length chunks = 3.
Proof.
  destruct (chunk_count 5 2 ["a"; "b"; "c"; "d"; "e"]) as (chunks & Hloop & Hlen & _);
    [lia | cbn; lia |].
  exists chunks. split; [exact Hloop | exact Hlen].
Defined.

End VoyageBatches.

(* ===================================================================== *)
(** ** Voyage re-ranker *)
(* ===================================================================== *)

Module Rerank.
Import Js.
Local Open Scope list_scope.

(** The request given to [client.rerank]. *)
Record RerankRequest : Type := mkRerankRequest {
  q_query : string;
  q_documents : list string;
  q_model : string;
  q_topK : option Z;
  q_returnDocuments : bool;
  q_truncation : bool
}.

(** An item of the answer of the API; every field may be missing. *)
Record ApiItem : Type := mkApiItem {
  api_index : option Z;
  api_relevanceScore : option Q;
  api_document : option string
}.

(** The answer of the API; [api_usage] is [usage.totalTokens] when [usage]
    is there. *)
Record ApiResponse : Type := mkApiResponse {
  api_data : option (list ApiItem);
  api_model : option string;
  api_usage : option (option Z)
}.

(** [RerankOptions]; the abort signal and the request id do not reach the
    result. *)
Record RerankOptions : Type := mkRerankOptions {
  topK : option Z;
  returnDocuments : option bool;
  truncation : option bool
}.

Record RerankResult : Type := mkRerankResult {
  index : Z;
  relevanceScore : Q;
  document : option string
}.

Record RerankResponse : Type := mkRerankResponse {
  results : list RerankResult;
  model : string;
  usage : option (option Z)
}.

(** [opts.model || "rerank-2"] in the constructor. *)
Definition model_of (opts_model : option string) : string :=
  or_else_str opts_model "rerank-2".

(** [items[i]] for a number [i]. *)
Definition item_at {T} (items : list T) (i : Z) : option T :=
  if (i <? 0)%Z then None else items !! Z.to_nat i.

(** An item with its score: [{ ...items[result.index], rerankScore,
    rerankIndex }]; the item is missing when the index points outside the
    items. *)
Record Reranked (T : Type) : Type := mkReranked {
  item : option T;
  rerankScore : Q;
  rerankIndex : Z
}.
Arguments mkReranked {T} item rerankScore rerankIndex.
Arguments item {T} r.
Arguments rerankScore {T} r.
Arguments rerankIndex {T} r.

Section Client.

Variable E : Type.
Variable client : RerankRequest -> outcome E ApiResponse.

(** [rerank] of a re-ranker built for [this_model]; an error of the client
    is logged and thrown again. *)
Definition rerank (this_model query : string) (documents : list string)
    (options : RerankOptions) : outcome E RerankResponse :=
  try_catch
    (bind (client
             (mkRerankRequest query documents this_model (topK options)
                (match returnDocuments options with Some b => b | None => false end)
                (match truncation options with Some b => b | None => true end)))
       (fun response =>
          Returns
            (mkRerankResponse
               (map (fun item =>
                       mkRerankResult
                         (match api_index item with Some i => i | None => 0%Z end)
                         (match api_relevanceScore item with Some s => s | None => 0%Q end)
                         (api_document item))
                  (match api_data response with Some d => d | None => [] end))
               (or_else_str (api_model response) this_model)
               (api_usage response))))
    (fun err => Throws err).

Definition rerankWithMetadata {T} (content : T -> string) (this_model query : string)
    (items : list T) (options : RerankOptions) : outcome E (list (Reranked T)) :=
  match items with
  | [] => Returns []
  | _ :: _ =>
      bind (rerank this_model query (map content items)
              (mkRerankOptions (topK options) (Some false) (truncation options)))
        (fun response =>
           Returns
             (map (fun result =>
                     mkReranked (item_at items (index result)) (relevanceScore result)
                       (index result))
                (results response)))
  end.

(** The request [rerankWithMetadata] sends. *)
Definition metadata_request {T} (content : T -> string) (this_model query : string)
    (items : list T) (options : RerankOptions) : RerankRequest :=
  mkRerankRequest query (map content items) this_model (topK options) false
    (match truncation options with Some b => b | None => true end).

Lemma lookup_all {T} (pre l : list T) :
  map (fun i => (pre ++ l) !! i) (seq (length pre) (length l)) = map Some l.
Proof.
  revert pre. induction l as [|x l IH]; intros pre; [reflexivity|].
  cbn [length seq map]. rewrite list_lookup_middle by reflexivity. f_equal.
  specialize (IH (pre ++ [x])). rewrite <- app_assoc in IH. cbn in IH.
  rewrite length_app in IH. cbn in IH. rewrite Nat.add_1_r in IH. exact IH.
Qed.

Lemma item_at_nat {T} (items : list T) (i : nat) :
  item_at items (Z.of_nat i) = items !! i.
Proof.
  unfold item_at. destruct (Z.ltb_spec (Z.of_nat i) 0); [lia|].
  now rewrite Nat2Z.id.
Qed.

(** X18: [rerankWithMetadata] answers an empty list of items with an empty list
    whatever the client would do, and hands on an error of the client. It
    asks for the contents of the items, never for the documents back, and
    answers one entry per result of the API, each with the item its index
    points to. When the indices of the results are the positions of the
    items in some order, the entries are the items in that order, each
    once. *)
Theorem rerankWithMetadata_items {T} (content : T -> string) (this_model query : string)
    (items : list T) (options : RerankOptions) :
  rerankWithMetadata content this_model query [] options = Returns [] /\
  (forall e,
     items <> [] ->
     client (metadata_request content this_model query items options) = Throws e ->
     rerankWithMetadata content this_model query items options = Throws e) /\
  (forall resp data,
     items <> [] ->
     client (metadata_request content this_model query items options) = Returns resp ->
     api_data resp = Some data ->
     exists out,
       rerankWithMetadata content this_model query items options = Returns out /\
       length out = length data /\
       (forall o, In o out -> item o = item_at items (rerankIndex o)) /\
       (forall order,
          map api_index data = map (fun i => Some (Z.of_nat i)) order ->
          Permutation order (seq 0 (length items)) ->
          map item out = map (fun i => items !! i) order /\
          Permutation (map item out) (map Some items))).
Proof.
  split; [reflexivity|]. split.
  - intros e Hne Hfail. destruct items as [|x xs]; [contradiction|].
    unfold rerankWithMetadata, rerank. unfold metadata_request in Hfail.
    cbn [topK returnDocuments truncation]. now rewrite Hfail.
  - intros resp data Hne Hresp Hdata. destruct items as [|x xs]; [contradiction|].
    unfold rerankWithMetadata, rerank. unfold metadata_request in Hresp.
    cbn [topK returnDocuments truncation]. rewrite Hresp. cbn. rewrite Hdata.
    eexists. split; [reflexivity|]. split; [now rewrite !length_map|]. split.
    + intros o Hin. apply in_map_iff in Hin as (res & <- & _). reflexivity.
    + intros order Hidx Hperm. rewrite !map_map. cbn.
      assert (Hitems :
        map (fun d => item_at (x :: xs)
                        (match api_index d with Some i => i | None => 0%Z end)) data
        = map (fun i => (x :: xs) !! i) order).
      { clear -Hidx. revert order Hidx.
        induction data as [|d data IH]; intros [|i order] Hidx;
          try discriminate; [reflexivity|].
        cbn in Hidx. injection Hidx as Hd Hrest.
        cbn [map]. rewrite Hd, item_at_nat. f_equal. now apply IH. }
      split; [exact Hitems|]. rewrite Hitems.
      rewrite (Permutation_map (fun i => (x :: xs) !! i) Hperm).
      pose proof (lookup_all [] (x :: xs)) as Hall.
      change (map (fun i => (x :: xs) !! i) (0%nat :: seq 1 (length xs))
              = Some x :: map Some xs) in Hall.
      now rewrite Hall.
Qed.

End Client.

(** A client that ranks the second of two documents first. *)
Definition swapping_client (rq : RerankRequest) : outcome string ApiResponse :=
  Returns (mkApiResponse
             (Some [ mkApiItem (Some 1%Z) (Some (9 # 10)) None;
                     mkApiItem (Some 0%Z) (Some (1 # 10)) None ])
             (Some "rerank-2") None).

Lemma rerankWithMetadata_items_witness :
  exists out,
    rerankWithMetadata string swapping_client (fun t : string => t) "rerank-2"
      "sum of a list" ["class Cart"; "function total"] (mkRerankOptions None None None)
    = Returns out /\
    map item out = [Some "function total"; Some "class Cart"].
Proof.
  destruct (proj2 (proj2 (rerankWithMetadata_items string swapping_client
                            (fun t : string => t) "rerank-2" "sum of a list"
                            ["class Cart"; "function total"]
                            (mkRerankOptions None None None)))
              _ _ ltac:(discriminate) eq_refl eq_refl)
    as (out & Hout & _ & _ & Horder).
  exists out. split; [exact Hout|].
  exact (proj1 (Horder [1; 0]%nat eq_refl
                  (perm_swap 0%nat 1%nat []))).
Defined.

End Rerank.

(* ===================================================================== *)
(** ** Tool execution behind the routes *)
(* ===================================================================== *)

Module ToolExecution.
Import Js ErrorMiddleware Validation ToolResult.

(** [ExecuteToolFunction]: name, arguments, request id and start time. *)
Definition ExecuteToolFunction : Type :=
  string -> json -> option string -> Z -> outcome Thrown ToolExecutionResult.

(** [globalExecuteFunction] *)
Definition ExecutorState : Type := option ExecuteToolFunction.

Definition initializeToolExecutor (st : ExecutorState) (executeFn : ExecuteToolFunction)
    : ExecutorState :=
  Some executeFn.

Definition isToolExecutorInitialized (st : ExecutorState) : bool :=
  match st with
  | Some _ => true
  | None => false
  end.

(** [new Error("Tool executor not initialized. ...")], with its stack. *)
Definition not_initialized (stack : option string) : Thrown :=
  OtherError
    (mkApiError "Error"
       "Tool executor not initialized. Call initializeToolExecutor() first."
       stack None None None None).

(** [executeToolDirect]; [now] is [Date.now()]. *)
Definition executeToolDirect (st : ExecutorState) (stack : option string) (now : Z)
    (toolName : string) (args : json) (requestId : option string)
    : outcome Thrown ToolExecutionResult :=
  match st with
  | None => Throws (not_initialized stack)
  | Some execute => execute toolName args requestId now
  end.

(** [executeTool] of the HTTP layer: the global [ToolExecutor] delegates
    to [executeToolDirect]; a failure is logged and thrown again. *)
Definition executeTool (st : ExecutorState) (stack : option string) (now : Z)
    (toolName : string) (args : json) (requestId : option string)
    : outcome Thrown ToolExecutionResult :=
  try_catch (executeToolDirect st stack now toolName args requestId)
    (fun error => Throws error).

Section Routes.

Variable JSON_parse : string -> outcome Thrown json.

(** The handler the tool routes share: execute the tool on the validated
    body, parse its result, answer [{ success: true, data, meta }] with
    the status of the route, a literal of its source: [201] where the
    route says [res.status(201)], and the [200] a response starts with
    elsewhere. *)
Definition tool_handler (st : ExecutorState) (stack : option string) (now : Z)
    (status : Z) (toolName : string) (res : Res) : Handler :=
  fun req =>
    let requestId := locals_requestId res in
    bind (executeTool st stack now toolName (body req) requestId) (fun result =>
    bind (parseToolResult Thrown JSON_parse result) (fun parsed =>
    Returns
      (mkResponse status
         (JObj [ ("success", JBool true);
                 ("data", parsed);
                 ("meta", JObj (obj_of [("requestId", str_opt requestId)])) ])))).

(** A route: [validateBody(schema)], the handler, the error handler. *)
Definition tool_route (env : Env) (schema : ZodSchema) (st : ExecutorState)
    (stack : option string) (now : Z) (status : Z) (toolName : string)
    (req : Request) (res : Res) : RouteRun :=
  run_route env schema (tool_handler st stack now status toolName res) req res.

Lemma parseToolResult_returns (result : ToolExecutionResult) :
  exists d, parseToolResult Thrown JSON_parse result = Returns d /\
    (first_text result = None -> d = failure "Empty response from tool") /\
    (forall t e, first_text result = Some t -> t <> "" -> JSON_parse t = Throws e ->
                 d = failure "Failed to parse tool response") /\
    (forall t j, first_text result = Some t -> t <> "" -> JSON_parse t = Returns j ->
                 d = j).
Proof.
  unfold parseToolResult. destruct (first_text result) as [t|]; cbn.
  - destruct (String.eqb_spec t "") as [->|Hne]; cbn.
    + eexists. split; [reflexivity|]. split; [discriminate|].
      split; intros t' x [= <-] Hne; contradiction.
    + destruct (JSON_parse t) as [j|e] eqn:Hp; cbn; eexists;
        (split; [reflexivity|]); (split; [discriminate|]); split.
      * intros t' e [= <-] _. rewrite Hp. discriminate.
      * intros t' j' [= <-] _. rewrite Hp. now intros [= <-].
      * reflexivity.
      * intros t' j' [= <-] _. rewrite Hp. discriminate.
  - eexists. split; [reflexivity|]. split; [reflexivity|].
    split; discriminate.
Qed.

(** X19: what a tool route answers once the schema has accepted the body.
    When the tool returns, the answer has the status of the route and
    [success: true], also when the result of the tool is empty or not JSON:
    then [data] is the [{ success: false, error }] object. When the tool
    fails, or no executor was registered, the error goes to the error
    handler; an unregistered executor is answered with status 500. *)
Theorem tool_route_answers (env : Env) (schema : ZodSchema) (st : ExecutorState)
    (stack : option string) (now status : Z) (toolName : string)
    (req : Request) (res : Res) (v : json) :
  schema (body req) = Parsed v ->
  (forall execute result,
     st = Some execute ->
     execute toolName v (locals_requestId res) now = Returns result ->
     exists r d,
       response (tool_route env schema st stack now status toolName req res)
       = Written r /\
       ErrorMiddleware.status r = status /\
       obj_get "success" (payload r) = Some (JBool true) /\
       obj_get "data" (payload r) = Some d /\
       parseToolResult Thrown JSON_parse result = Returns d /\
       (first_text result = None -> d = failure "Empty response from tool") /\
       (forall t e, first_text result = Some t -> t <> "" -> JSON_parse t = Throws e ->
                    d = failure "Failed to parse tool response") /\
       (forall rid, locals_requestId res = Some rid ->
                    obj_path ["meta"; "requestId"] (payload r) = Some (JStr rid))) /\
  (forall execute e,
     st = Some execute ->
     execute toolName v (locals_requestId res) now = Throws e ->
     response (tool_route env schema st stack now status toolName req res)
     = errorHandler env e (with_body v req) res) /\
  (st = None ->
   response (tool_route env schema st stack now status toolName req res)
   = errorHandler env (not_initialized stack) (with_body v req) res /\
   (headersSent res = false ->
    exists r,
      response (tool_route env schema st stack now status toolName req res)
      = Written r /\
      ErrorMiddleware.status r = 500)).
Proof.
  intros Hv. unfold tool_route, run_route, validateBody. rewrite Hv.
  unfold tool_handler, executeTool, executeToolDirect.
  split; [|split].
  - intros execute result -> Hrun. cbn. rewrite Hrun. cbn.
    destruct (parseToolResult_returns result) as (d & Hd & Hempty & Hbad & _).
    rewrite Hd. cbn. eexists. exists d. split; [reflexivity|].
    split; [reflexivity|]. split; [reflexivity|]. split; [reflexivity|].
    split; [reflexivity|]. split; [exact Hempty|]. split; [exact Hbad|].
    intros rid ->. reflexivity.
  - intros execute e -> Hrun. cbn. now rewrite Hrun.
  - intros ->. cbn. split; [reflexivity|]. intros Hs.
    unfold errorHandler. rewrite Hs. cbn. eexists. split; reflexivity.
Qed.

End Routes.

(** A tool that answers nothing. *)
Definition silent_tool : ExecuteToolFunction :=
  fun _ _ _ _ => Returns (mkResult []).

Lemma tool_route_answers_witness :
  exists r,
    response
      (tool_route (fun _ => Throws (not_initialized None)) None object_schema
         (Some silent_tool) None 0 201 "create_product"
         (mkRequest "POST" "/api/projects" None (JObj [])) (mkRes false (Some "req_1")))
    = Written r /\
    ErrorMiddleware.status r = 201 /\
    obj_get "success" (payload r) = Some (JBool true) /\
    obj_get "data" (payload r) = Some (failure "Empty response from tool").
Proof.
  destruct (proj1 (tool_route_answers (fun _ => Throws (not_initialized None)) None
                     object_schema (Some silent_tool) None 0 201 "create_product"
                     (mkRequest "POST" "/api/projects" None (JObj []))
                     (mkRes false (Some "req_1")) (JObj []) eq_refl)
              silent_tool (mkResult []) eq_refl eq_refl)
    as (r & d & Hr & Hst & Hok & Hdata & _ & Hempty & _).
  exists r. split; [exact Hr|]. split; [exact Hst|]. split; [exact Hok|].
  rewrite Hdata. f_equal. now apply Hempty.
Defined.

End ToolExecution.

(* ===================================================================== *)
(** ** MCP over SSE: sessions *)
(* ===================================================================== *)

Module SseSessions.
Import Js.

(** What [POST /messages] reads of a request: the parsed body, if any, and
    the [mcp-session-id] header. *)
Record MessageRequest : Type := mkMessage {
  message_body : option json;
  mcp_session_id : option string
}.

(** [req.body?.meta?.sessionId] *)
Definition body_session (b : option json) : option json :=
  match b with
  | Some j =>
      match obj_get "meta" j with
      | Some m => obj_get "sessionId" m
      | None => None
      end
  | None => None
  end.

(** The session id of a message: from the body when that is truthy, from
    the header otherwise. *)
Inductive SessionId : Type :=
| FromBody (j : json)
| FromHeader (s : string).

(** [req.body?.meta?.sessionId || req.headers["mcp-session-id"]], [None]
    when the result is falsy. *)
Definition sessionId_of (req : MessageRequest) : option SessionId :=
  match body_session (message_body req) with
  | Some j =>
      if truthy j then Some (FromBody j)
      else
        match mcp_session_id req with
        | Some h => if String.eqb h "" then None else Some (FromHeader h)
        | None => None
        end
  | None =>
      match mcp_session_id req with
      | Some h => if String.eqb h "" then None else Some (FromHeader h)
      | None => None
      end
  end.

(** The key [transports.get] looks up: the map has string keys only. *)
Definition key_of (sid : SessionId) : option string :=
  match sid with
  | FromBody (JStr s) => Some s
  | FromBody _ => None
  | FromHeader h => Some h
  end.

Fixpoint has_key (key : string) (fields : list (string * json)) : bool :=
  match fields with
  | [] => false
  | (k, _) :: rest => String.eqb k key || has_key key rest
  end.

(** Whether the conversion of a value to a string, as a template literal
    makes it, throws. An object read from JSON holds no function: when it
    has a property [toString] of its own, neither that nor the inherited
    [valueOf] yields a primitive value and the conversion ends in a
    [TypeError]. An array is converted element by element. *)
Fixpoint to_string_throws (j : json) : bool :=
  match j with
  | JObj fields => has_key "toString" fields
  | JArr items => existsb to_string_throws items
  | _ => false
  end.

(** [`${sessionId}`] throws. *)
Definition unprintable (sid : SessionId) : bool :=
  match sid with
  | FromBody j => to_string_throws j
  | FromHeader _ => false
  end.

(** Where [POST /messages] takes a message: it answers 400 or 404, or
    ends in the [catch] while building the 404 answer, or hands the
    message to the transport of the session. *)
Inductive MessageOutcome (T : Type) : Type :=
| MissingSessionId
| SessionNotFound (sid : SessionId)
| MessageFails (sid : SessionId)
| HandedTo (transport : T).
Arguments MissingSessionId {T}.
Arguments SessionNotFound {T} sid.
Arguments MessageFails {T} sid.
Arguments HandedTo {T} transport.

(** [transport.handlePostMessage(req, res, req.body)] of the SDK: the
    transport answers the request itself, or the call throws, with the
    headers sent by then or not. *)
Inductive Handling : Type :=
| Answered
| HandlingFails (headersSent : bool).

Section Transports.

(** The transport objects of the SDK and the errors its calls throw. *)
Variable T : Type.
Variable E : Type.

(** The [transports] map, with whether [onclose] and [onerror] were
    attached to the transport. *)
Definition Transports : Type := gmap string (T * bool).

(** The 404 answer quotes the session id in its message; when the id
    cannot be converted to a string the answer is not sent and the [catch]
    answers 500. *)
Definition not_found (sid : SessionId) : MessageOutcome T :=
  if unprintable sid then MessageFails sid else SessionNotFound sid.

Definition post_messages (transports : gmap string (T * bool)) (req : MessageRequest)
    : MessageOutcome T :=
  match sessionId_of req with
  | None => MissingSessionId
  | Some sid =>
      match key_of sid with
      | Some k =>
          match transports !! k with
          | Some (t, _) => HandedTo t
          | None => not_found sid
          end
      | None => not_found sid
      end
  end.

Variable handlePostMessage : T -> MessageRequest -> Handling.

(** The status the route itself writes, if it writes one: the [catch]
    answers 500 unless the headers are sent. *)
Definition route_status (transports : gmap string (T * bool)) (req : MessageRequest)
    : option Z :=
  match post_messages transports req with
  | MissingSessionId => Some 400
  | SessionNotFound _ => Some 404
  | MessageFails _ => Some 500
  | HandedTo t =>
      match handlePostMessage t req with
      | Answered => None
      | HandlingFails sent => if sent then None else Some 500
      end
  end.

(** The calls [GET /sse] makes into the SDK: [new SSEServerTransport(...)],
    [mcpServer.connect(transport)] and [transport.start()]. The last two
    work on the transport object, which the map holds by then: they give
    the object as they leave it and the error they throw, if any.
    [started] reads whether the stream of a transport was started. *)
Variable new_transport : outcome E T.
Variable connect : T -> T * option E.
Variable start : T -> T * option E.
Variable started : T -> bool.

(** [GET /sse] with the session id [randomUUID()] gives: what it leaves in
    the map. The handlers are attached last, after [start] has returned. *)
Definition sse_connect (transports : gmap string (T * bool)) (sessionId : string)
    : gmap string (T * bool) :=
  match new_transport with
  | Throws _ => transports
  | Returns t =>
      let (connected, connect_error) := connect t in
      match connect_error with
      | Some _ => <[sessionId := (connected, false)]> transports
      | None =>
          let (streaming, start_error) := start connected in
          match start_error with
          | Some _ => <[sessionId := (streaming, false)]> transports
          | None => <[sessionId := (streaming, true)]> transports
          end
      end
  end.

(** The transport of a session closes or fails: [onclose] and [onerror]
    delete the session, if they were attached. *)
Definition transport_ended (transports : gmap string (T * bool)) (sessionId : string)
    : gmap string (T * bool) :=
  match transports !! sessionId with
  | Some (_, true) => delete sessionId transports
  | _ => transports
  end.

(** [activeSessions] of [GET /health]. *)
Definition activeSessions (transports : gmap string (T * bool)) : nat := size transports.

Lemma to_string_throws_not_string (j : json) :
  to_string_throws j = true -> key_of (FromBody j) = None.
Proof. destruct j; cbn; congruence. Qed.

(** X20: a message is handed to a transport exactly when its session id, the
    one of the body if truthy and else the header, is the key of a
    registered session; it is refused with 400 exactly when neither the
    body nor the header gives a session id. An id that is no key of the
    map is answered 404 when it can be converted to a string; the route
    answers 500 when it cannot (an object of the body that has a
    [toString] property, or an array that holds one), and when the
    transport throws with the headers unsent. A truthy id in the body
    hides the header. *)
Theorem post_messages_routing (transports : gmap string (T * bool))
    (req : MessageRequest) :
  (forall t, post_messages transports req = HandedTo t
     <-> exists sid k b, sessionId_of req = Some sid /\ key_of sid = Some k /\
                         transports !! k = Some (t, b)) /\
  (route_status transports req = Some 400
   <-> (forall j, body_session (message_body req) = Some j -> truthy j = false) /\
       (mcp_session_id req = None \/ mcp_session_id req = Some "")) /\
  (route_status transports req = Some 404
   <-> exists sid, sessionId_of req = Some sid /\
                   (forall k, key_of sid = Some k -> transports !! k = None) /\
                   unprintable sid = false) /\
  (route_status transports req = Some 500
   <-> (exists j, sessionId_of req = Some (FromBody j) /\ to_string_throws j = true) \/
       (exists t, post_messages transports req = HandedTo t /\
                  handlePostMessage t req = HandlingFails false)) /\
  (forall j, body_session (message_body req) = Some j -> truthy j = true ->
             sessionId_of req = Some (FromBody j)).
Proof.
  assert (Hhanded : forall t,
            post_messages transports req = HandedTo t
            <-> exists sid k b, sessionId_of req = Some sid /\ key_of sid = Some k /\
                                transports !! k = Some (t, b)).
  { intros t. unfold post_messages, not_found.
    destruct (sessionId_of req) as [sid|].
    - destruct (key_of sid) as [k|] eqn:Hkey.
      + destruct (transports !! k) as [[t' b]|] eqn:Hk; split.
        * intros [= <-]. exists sid, k, b. auto.
        * intros (sid' & k' & b' & [= <-] & Hkey' & Hk'). congruence.
        * destruct (unprintable sid); discriminate.
        * intros (sid' & k' & b' & [= <-] & Hkey' & Hk'). congruence.
      + split; [destruct (unprintable sid); discriminate|].
        intros (sid' & k' & b' & [= <-] & Hk & _). congruence.
    - split; [discriminate|]. intros (sid' & k' & b' & Hs & _). discriminate. }
  assert (Hmissing : post_messages transports req = MissingSessionId
                     <-> sessionId_of req = None).
  { unfold post_messages, not_found. destruct (sessionId_of req) as [sid|].
    - split; [|discriminate].
      destruct (key_of sid) as [k|]; [destruct (transports !! k) as [[t b]|]|];
        try destruct (unprintable sid); discriminate.
    - split; reflexivity. }
  assert (Hunknown : forall sid,
            sessionId_of req = Some sid ->
            (forall k, key_of sid = Some k -> transports !! k = None) ->
            post_messages transports req = not_found sid).
  { intros sid Hsid Hnone. unfold post_messages. rewrite Hsid.
    destruct (key_of sid) as [k|]; [|reflexivity]. now rewrite (Hnone k eq_refl). }
  assert (Hknown : forall sid k t b,
            sessionId_of req = Some sid -> key_of sid = Some k ->
            transports !! k = Some (t, b) ->
            post_messages transports req = HandedTo t).
  { intros sid k t b Hsid Hkey Hk. unfold post_messages. now rewrite Hsid, Hkey, Hk. }
  assert (Hcases : forall sid, sessionId_of req = Some sid ->
            (forall k, key_of sid = Some k -> transports !! k = None) \/
            (exists k t b, key_of sid = Some k /\ transports !! k = Some (t, b))).
  { intros sid _. destruct (key_of sid) as [k|]; [|left; discriminate].
    destruct (transports !! k) as [[t b]|] eqn:Hk.
    - right. exists k, t, b. auto.
    - left. intros k' [= <-]. exact Hk. }
  split; [exact Hhanded|]. unfold route_status. split; [|split; [|split]].
  - split.
    + intros Hst.
      assert (Hnone : sessionId_of req = None).
      { apply Hmissing. destruct (post_messages transports req) as [|sid|sid|t];
          [reflexivity | discriminate | discriminate |].
        destruct (handlePostMessage t req) as [|[]]; discriminate. }
      unfold sessionId_of in Hnone.
      destruct (body_session (message_body req)) as [j|].
      * destruct (truthy j) eqn:Hj; [discriminate|]. split.
        -- now intros j' [= <-].
        -- destruct (mcp_session_id req) as [h|]; [|now left].
           destruct (String.eqb_spec h "") as [Heq|Hneq]; [right; congruence | discriminate].
      * split; [discriminate|].
        destruct (mcp_session_id req) as [h|]; [|now left].
        destruct (String.eqb_spec h "") as [Heq|Hneq]; [right; congruence | discriminate].
    + intros [Hbody Hhead].
      assert (Hnone : sessionId_of req = None).
      { unfold sessionId_of. destruct (body_session (message_body req)) as [j|].
        - rewrite (Hbody j eq_refl). destruct Hhead as [-> | ->]; reflexivity.
        - destruct Hhead as [-> | ->]; reflexivity. }
      now rewrite (proj2 Hmissing Hnone).
  - split.
    + intros Hst. destruct (sessionId_of req) as [sid|] eqn:Hsid.
      * destruct (Hcases sid eq_refl) as [Hnone | (k & t & b & Hkey & Hk)].
        -- rewrite (Hunknown sid eq_refl Hnone) in Hst. unfold not_found in Hst.
           destruct (unprintable sid) eqn:Hp; [discriminate|].
           exists sid. auto.
        -- rewrite (Hknown sid k t b eq_refl Hkey Hk) in Hst.
           destruct (handlePostMessage t req) as [|[]]; discriminate.
      * rewrite (proj2 Hmissing eq_refl) in Hst. discriminate.
    + intros (sid & Hsid & Hnone & Hp).
      rewrite (Hunknown sid Hsid Hnone). unfold not_found. now rewrite Hp.
  - split.
    + intros Hst. destruct (sessionId_of req) as [sid|] eqn:Hsid.
      * destruct (Hcases sid eq_refl) as [Hnone | (k & t & b & Hkey & Hk)].
        -- rewrite (Hunknown sid eq_refl Hnone) in Hst. unfold not_found in Hst.
           destruct (unprintable sid) eqn:Hp; [|discriminate].
           left. destruct sid as [j|h]; [|discriminate]. now exists j.
        -- right. exists t. split; [now apply (Hknown sid k t b)|].
           rewrite (Hknown sid k t b eq_refl Hkey Hk) in Hst.
           destruct (handlePostMessage t req) as [|[]]; [discriminate..|reflexivity].
      * rewrite (proj2 Hmissing eq_refl) in Hst. discriminate.
    + intros [(j & Hsid & Hj) | (t & Hpost & Hfail)].
      * rewrite (Hunknown (FromBody j) Hsid).
        -- unfold not_found. cbn [unprintable]. now rewrite Hj.
        -- intros k Hk. rewrite (to_string_throws_not_string j Hj) in Hk. discriminate.
      * now rewrite Hpost, Hfail.
  - intros j Hb Hj. unfold sessionId_of. now rewrite Hb, Hj.
Qed.

(** X21: the sessions of [GET /sse] under the contract of the SDK, that
    [connect] starts the transport it is given and that starting a
    started transport throws. The call of [transport.start()] that follows
    a successful [connect] then always throws, and [onclose] and [onerror]
    are never attached: a transport that could be built is stored under
    its session id, receives the messages that name it and counts as
    active, and stays so when it closes or fails, whether [connect]
    succeeded or not. When the transport cannot be built nothing is
    stored. *)
Theorem session_never_removed (transports : gmap string (T * bool)) (sid : string) :
  (forall t, snd (connect t) = None -> started (fst (connect t)) = true) ->
  (forall t, started t = true -> snd (start t) <> None) ->
  transports !! sid = None -> sid <> "" ->
  (forall e, new_transport = Throws e -> sse_connect transports sid = transports) /\
  (forall t, new_transport = Returns t ->
     exists t',
       sse_connect transports sid = <[sid := (t', false)]> transports /\
       post_messages (sse_connect transports sid) (mkMessage None (Some sid))
       = HandedTo t' /\
       activeSessions (sse_connect transports sid) = S (activeSessions transports) /\
       transport_ended (sse_connect transports sid) sid = sse_connect transports sid /\
       post_messages (transport_ended (sse_connect transports sid) sid)
         (mkMessage None (Some sid))
       = HandedTo t').
Proof.
  intros Hconnect Hstart Hfresh Hne. split.
  - intros e He. unfold sse_connect. now rewrite He.
  - intros t Ht.
    assert (Hstored : exists t', sse_connect transports sid
                                 = <[sid := (t', false)]> transports).
    { unfold sse_connect. rewrite Ht.
      specialize (Hconnect t). destruct (connect t) as [t1 [e1|]]; [eauto|].
      specialize (Hstart t1 (Hconnect eq_refl)).
      destruct (start t1) as [t2 [e2|]]; [eauto|]. now cbn in Hstart. }
    destruct Hstored as [t' Hstored]. exists t'. rewrite Hstored.
    apply String.eqb_neq in Hne.
    unfold post_messages, not_found, sessionId_of, transport_ended, activeSessions.
    cbn. rewrite Hne. cbn. rewrite !lookup_insert_eq.
    rewrite map_size_insert_None by exact Hfresh. cbn.
    repeat split.
Qed.

End Transports.

(** A transport as the SDK keeps it, reduced to whether its stream was
    started: [connect] starts it, and [start] refuses a second start. *)
Definition sdk_connect (t : bool) : bool * option string := (true, None).

Definition sdk_start (t : bool) : bool * option string :=
  if t then (t, Some "SSEServerTransport already started!") else (true, None).

Lemma session_never_removed_witness :
  post_messages bool
    (sse_connect bool string (Returns false) sdk_connect sdk_start ∅ "4f1c")
    (mkMessage None (Some "4f1c"))
  = HandedTo true /\
  transport_ended bool
    (sse_connect bool string (Returns false) sdk_connect sdk_start ∅ "4f1c") "4f1c"
  = sse_connect bool string (Returns false) sdk_connect sdk_start ∅ "4f1c" /\
  activeSessions bool
    (sse_connect bool string (Returns false) sdk_connect sdk_start ∅ "4f1c")
  = 1%nat.
Proof.
  assert (Hstart : forall t : bool, t = true -> snd (sdk_start t) <> None).
  { intros t ->. discriminate. }
  destruct (proj2 (session_never_removed bool string (Returns false) sdk_connect
                     sdk_start (fun t => t) ∅ "4f1c"
                     (fun t _ => eq_refl) Hstart
                     (lookup_empty _) ltac:(discriminate))
              false eq_refl)
    as (t' & Hstored & Hpost & Hsize & Hend & _).
  assert (Ht' : t' = true).
  { assert (Hl : sse_connect bool string (Returns false) sdk_connect sdk_start ∅ "4f1c"
                 !! "4f1c" = Some (true, false)) by apply lookup_insert_eq.
    rewrite Hstored, lookup_insert_eq in Hl. congruence. }
  subst t'. split; [exact Hpost|]. split; [exact Hend|].
  rewrite Hsize. unfold activeSessions. now rewrite map_size_empty.
Defined.

End SseSessions.
